(** * Request orchestration of the MCP inspector client

    A shallow embedding of the two React components that carry the
    connection and request-orchestration logic:

    - [App] (client/src/components/App.tsx): category-scoped error state,
      the request dispatcher [sendMCPRequest], the four paginated listings,
      tool invocation with progress tokens, and the sampling approval queue;
    - [MCPServerButton]: the active-server list, its reconciliation against
      the server states, and the aggregated tool count.

    [AppViews] names what sequences of handler calls leave behind,
    [AppHandlers] holds the handlers of [App] outside the request core
    (subscriptions, log level, notification logs, the props of the tabs,
    the default tab), and [ServerMenu] the handlers of the server menu
    (toggle, select all, deselect all) and its badge.

    React state is modelled by explicit state passing.  Every handler runs
    against the state of the render that created it, so a sequence of
    handler calls is a left fold over the state.  Requests to the server go
    through [makeRequest], which lives in the connection hook; its answer is
    an argument of each operation, and the request that was built is logged
    so that theorems can speak about what was sent.

    Two places need more than that.  The sampling handlers do their work
    inside state updaters, which React may run more than once: their first
    argument says how many further times, [App.run] folds over calls whose
    updaters run once, and [App.runRuns] over calls that each carry their
    number of further runs.  The subscription handlers resume after their
    [await] with the set of the render that created them:
    [AppHandlers.Stage] keeps the calls in flight beside the component. *)

From stdpp Require Import base option list list_numbers sorting gmap strings fin_maps fin_map_dom pretty.

Open Scope string_scope.
Open Scope list_scope.
Open Scope stdpp_scope.

Module App.

(** ** Values and messages *)

(** The value caught by [catch (e)].  The source casts it to [Error] and
    reads [(e as Error).message ?? String(e)]: a message when the value has
    one, its string rendering otherwise. *)
Record Thrown := {
  message : option string;
  toString : string
}.

Definition errorString (e : Thrown) : string :=
  default (toString e) (message e).

(** [new Error(msg)] *)
Definition newError (msg : string) : Thrown :=
  {| message := Some msg; toString := String.append "Error: " msg |}.

(** Listed items are opaque to the component; each is identified by its
    name or uri. *)
Definition Resource := string.
Definition ResourceTemplate := string.
Definition Prompt := string.
Definition Tool := string.
Definition CreateMessageRequest := string.
Definition CreateMessageResult := string.

(** The [params] object of a request. *)
Inductive Params :=
| ParamsEmpty
| ParamsCursor (cursor : string)
| ParamsCall (name : string) (arguments : list (string * string)) (progressToken : nat).

Record ClientRequest := {
  method : string;
  params : Params
}.

(** [cursor ? { cursor } : {}]: an undefined cursor and the empty string
    are both falsy. *)
Definition cursorParams (cursor : option string) : Params :=
  match cursor with
  | Some c => if decide (c = "") then ParamsEmpty else ParamsCursor c
  | None => ParamsEmpty
  end.

Record ListResourcesResult := {
  lr_resources : option (list Resource);
  lr_nextCursor : option string
}.

Record ListResourceTemplatesResult := {
  lrt_resourceTemplates : option (list ResourceTemplate);
  lrt_nextCursor : option string
}.

Record ListPromptsResult := {
  lp_prompts : list Prompt;
  lp_nextCursor : option string
}.

Record ListToolsResult := {
  lt_tools : list Tool;
  lt_nextCursor : option string
}.

Inductive ContentItem :=
| TextContent (text : string)
| OtherContent (type : string) (payload : string).

Inductive CompatibilityCallToolResult :=
| CallToolResult (content : list ContentItem) (isError : option bool)
| LegacyToolResult (toolResult : string).

(** ** Sampling queue entries *)

(** The two closures handed over with a sampling request are named by
    handles; calling one is recorded as an [Effect]. *)
Definition Handle := nat.

Record PendingSampleRequest := {
  id : nat;
  request : CreateMessageRequest;
  resolve : Handle;
  reject : Handle
}.

(** Observable calls made by the component: requests handed to
    [makeRequest], queue entries created, and capability invocations. *)
Inductive Effect :=
| Sent (req : ClientRequest)
| Queued (r : PendingSampleRequest)
| Resolved (r : PendingSampleRequest) (result : CreateMessageResult)
| Rejected (r : PendingSampleRequest) (error : Thrown).

(** ** Component state *)

Record AppState := {
  resources : list Resource;
  resourceTemplates : list ResourceTemplate;
  prompts : list Prompt;
  tools : list Tool;
  toolResult : option CompatibilityCallToolResult;
  errors : gmap string (option string);
  pendingSampleRequests : list PendingSampleRequest;
  nextRequestId : nat;
  nextResourceCursor : option string;
  nextResourceTemplateCursor : option string;
  nextPromptCursor : option string;
  nextToolCursor : option string;
  progressTokenRef : nat;
  effects : list Effect
}.

(** The [useState] / [useRef] initial values. *)
Definition initial : AppState := {|
  resources := [];
  resourceTemplates := [];
  prompts := [];
  tools := [];
  toolResult := None;
  errors := <["resources" := None]> (<["prompts" := None]> (<["tools" := None]> ∅));
  pendingSampleRequests := [];
  nextRequestId := 0;
  nextResourceCursor := None;
  nextResourceTemplateCursor := None;
  nextPromptCursor := None;
  nextToolCursor := None;
  progressTokenRef := 0;
  effects := []
|}.

Definition setResources (v : list Resource) (s : AppState) : AppState :=
  let 'Build_AppState _ b c d e f g h i j k l m n := s in
  Build_AppState v b c d e f g h i j k l m n.
Definition setResourceTemplates (v : list ResourceTemplate) (s : AppState) : AppState :=
  let 'Build_AppState a _ c d e f g h i j k l m n := s in
  Build_AppState a v c d e f g h i j k l m n.
Definition setPrompts (v : list Prompt) (s : AppState) : AppState :=
  let 'Build_AppState a b _ d e f g h i j k l m n := s in
  Build_AppState a b v d e f g h i j k l m n.
Definition setTools (v : list Tool) (s : AppState) : AppState :=
  let 'Build_AppState a b c _ e f g h i j k l m n := s in
  Build_AppState a b c v e f g h i j k l m n.
Definition setToolResult (v : option CompatibilityCallToolResult) (s : AppState) : AppState :=
  let 'Build_AppState a b c d _ f g h i j k l m n := s in
  Build_AppState a b c d v f g h i j k l m n.
(** [setErrors] and [setPendingSampleRequests] are only ever called with an
    updater function of the previous value. *)
Definition setErrors (u : gmap string (option string) → gmap string (option string))
    (s : AppState) : AppState :=
  let 'Build_AppState a b c d e f g h i j k l m n := s in
  Build_AppState a b c d e (u f) g h i j k l m n.
Definition setPendingSampleRequests
    (u : list PendingSampleRequest → list PendingSampleRequest) (s : AppState) : AppState :=
  let 'Build_AppState a b c d e f g h i j k l m n := s in
  Build_AppState a b c d e f (u g) h i j k l m n.
Definition setNextRequestId (v : nat) (s : AppState) : AppState :=
  let 'Build_AppState a b c d e f g _ i j k l m n := s in
  Build_AppState a b c d e f g v i j k l m n.
Definition setNextResourceCursor (v : option string) (s : AppState) : AppState :=
  let 'Build_AppState a b c d e f g h _ j k l m n := s in
  Build_AppState a b c d e f g h v j k l m n.
Definition setNextResourceTemplateCursor (v : option string) (s : AppState) : AppState :=
  let 'Build_AppState a b c d e f g h i _ k l m n := s in
  Build_AppState a b c d e f g h i v k l m n.
Definition setNextPromptCursor (v : option string) (s : AppState) : AppState :=
  let 'Build_AppState a b c d e f g h i j _ l m n := s in
  Build_AppState a b c d e f g h i j v l m n.
Definition setNextToolCursor (v : option string) (s : AppState) : AppState :=
  let 'Build_AppState a b c d e f g h i j k _ m n := s in
  Build_AppState a b c d e f g h i j k v m n.
Definition setProgressTokenRef (v : nat) (s : AppState) : AppState :=
  let 'Build_AppState a b c d e f g h i j k l _ n := s in
  Build_AppState a b c d e f g h i j k l v n.
Definition record (ev : Effect) (s : AppState) : AppState :=
  let 'Build_AppState a b c d e f g h i j k l m n := s in
  Build_AppState a b c d e f g h i j k l m (n ++ [ev]).

(** ** Computations over the component state that may throw *)

Inductive Outcome (A : Type) :=
| Returned (a : A)
| Raised (e : Thrown).
Arguments Returned {A} a.
Arguments Raised {A} e.

(** State written before a [throw] stays written. *)
Definition M (A : Type) : Type := AppState → Outcome A * AppState.

#[export] Instance M_ret : MRet M := λ A a s, (Returned a, s).
#[export] Instance M_bind : MBind M := λ A B k m s,
  match m s with
  | (Returned a, s') => k a s'
  | (Raised e, s') => (Raised e, s')
  end.

Definition throw {A} (e : Thrown) : M A := λ s, (Raised e, s).

Definition tryCatch {A} (body : M A) (handler : Thrown → M A) : M A := λ s,
  match body s with
  | (Returned a, s') => (Returned a, s')
  | (Raised e, s') => handler e s'
  end.

Definition read {A} (field : AppState → A) : M A := λ s, (Returned (field s), s).
Definition write (f : AppState → AppState) : M unit := λ s, (Returned tt, f s).

(** [if (tabKey !== undefined) { ... }] *)
Definition whenDefined {K} (key : option K) (body : K → M unit) : M unit :=
  match key with
  | Some k => body k
  | None => mret tt
  end.

(** [makeRequest(request, schema)] belongs to the connection hook: it hands
    the request to the server and returns the validated response or throws.
    The answer [reply] is supplied by the environment. *)
Definition makeRequest {R} (req : ClientRequest) (reply : Outcome R) : M R := λ s,
  (reply, record (Sent req) s).

(** ** Category errors and the dispatcher *)

Definition clearError (tabKey : string) : M unit :=
  write (setErrors (λ prev, <[tabKey := None]> prev)).

Definition sendMCPRequest {R} (req : ClientRequest) (reply : Outcome R)
    (tabKey : option string) : M R :=
  tryCatch
    (response ← makeRequest req reply;
     whenDefined tabKey clearError ;;
     mret response)
    (λ e,
      let errorString := errorString e in
      whenDefined tabKey (λ k,
        write (setErrors (λ prev, <[k := Some errorString]> prev))) ;;
      throw e).

(** ** Paginated listings

    [resources], [nextResourceCursor] and their siblings are read from the
    render that created the handler; [sendMCPRequest] writes none of them,
    so reading them from the running state gives the same values. *)

Definition listResources (reply : Outcome ListResourcesResult) : M unit :=
  cursor ← read nextResourceCursor;
  response ← sendMCPRequest
    {| method := "resources/list"; params := cursorParams cursor |}
    reply (Some "resources");
  current ← read resources;
  write (setResources (current ++ default [] (lr_resources response))) ;;
  write (setNextResourceCursor (lr_nextCursor response)).

Definition listResourceTemplates (reply : Outcome ListResourceTemplatesResult) : M unit :=
  cursor ← read nextResourceTemplateCursor;
  response ← sendMCPRequest
    {| method := "resources/templates/list"; params := cursorParams cursor |}
    reply (Some "resources");
  current ← read resourceTemplates;
  write (setResourceTemplates (current ++ default [] (lrt_resourceTemplates response))) ;;
  write (setNextResourceTemplateCursor (lrt_nextCursor response)).

Definition listPrompts (reply : Outcome ListPromptsResult) : M unit :=
  cursor ← read nextPromptCursor;
  response ← sendMCPRequest
    {| method := "prompts/list"; params := cursorParams cursor |}
    reply (Some "prompts");
  write (setPrompts (lp_prompts response)) ;;
  write (setNextPromptCursor (lp_nextCursor response)).

Definition listTools (reply : Outcome ListToolsResult) : M unit :=
  cursor ← read nextToolCursor;
  response ← sendMCPRequest
    {| method := "tools/list"; params := cursorParams cursor |}
    reply (Some "tools");
  write (setTools (lt_tools response)) ;;
  write (setNextToolCursor (lt_nextCursor response)).

(** The [clear...] handlers passed to the tabs. *)
Definition clearResources : M unit :=
  write (setResources []) ;; write (setNextResourceCursor None).
Definition clearResourceTemplates : M unit :=
  write (setResourceTemplates []) ;; write (setNextResourceTemplateCursor None).
Definition clearPrompts : M unit :=
  write (setPrompts []) ;; write (setNextPromptCursor None).
Definition clearTools : M unit :=
  write (setTools []) ;; write (setNextToolCursor None).

(** ** Tool invocation *)

(** [ref.current++] on a counter that starts at 0.  JavaScript numbers are
    exact on the integers a session can count through, so the counter is a
    natural number. *)
Definition postIncrement (field : AppState → nat) (set : nat → AppState → AppState) : M nat :=
  λ s, (Returned (field s), set (S (field s)) s).

Definition callTool (name : string) (arguments : list (string * string))
    (reply : Outcome CompatibilityCallToolResult) : M unit :=
  tryCatch
    (token ← postIncrement progressTokenRef setProgressTokenRef;
     response ← sendMCPRequest
       {| method := "tools/call"; params := ParamsCall name arguments token |}
       reply (Some "tools");
     write (setToolResult (Some response)))
    (λ e,
      let toolResult := CallToolResult [TextContent (errorString e)] (Some true) in
      write (setToolResult (Some toolResult))).

(** ** Sampling approval queue *)

(** The three handlers below do their work inside the updater they pass to
    [setPendingSampleRequests]: the id is taken from
    [nextRequestId.current++] and the capability is called while the
    updater computes the next queue.  React may call an updater more than
    once on the same previous queue and keeps the result of the last call:
    once in a production build, twice in a development build under
    StrictMode, which next.config turns on ([reactStrictMode: true]).
    What the updater does besides returning happens at every call.  Each
    of the three handlers takes the number [extra] of further runs of its
    updater.

    [rerun extra m] runs [m] once and then [extra] more times, and returns
    what the last run returned. *)
Fixpoint rerun {A} (extra : nat) (m : M A) : M A :=
  match extra with
  | 0 => m
  | S fewer => m ;; rerun fewer m
  end.

(** On arrival of a request every run of the updater takes an id from the
    counter and builds an entry with it; the entry of the last run is the
    one appended to the queue. *)
Definition onPendingRequest (extra : nat) (req : CreateMessageRequest)
    (resolve reject : Handle) : M unit :=
  entry ← rerun extra
    (fresh ← postIncrement nextRequestId setNextRequestId;
     mret {| id := fresh; request := req; resolve := resolve; reject := reject |});
  write (record (Queued entry)) ;;
  write (setPendingSampleRequests (λ prev, prev ++ [entry])).

(** [request?.resolve(result)] and [request?.reject(error)] *)
Definition callResolve (found : option PendingSampleRequest) (result : CreateMessageResult) : M unit :=
  match found with
  | Some r => write (record (Resolved r result))
  | None => mret tt
  end.

Definition callReject (found : option PendingSampleRequest) (error : Thrown) : M unit :=
  match found with
  | Some r => write (record (Rejected r error))
  | None => mret tt
  end.

(** Every run of the updater looks the entry up in the same previous queue
    and calls its capability. *)
Definition handleApproveSampling (extra : nat) (i : nat)
    (result : CreateMessageResult) : M unit :=
  prev ← read pendingSampleRequests;
  let found := List.find (λ r, bool_decide (id r = i)) prev in
  rerun extra (callResolve found result) ;;
  write (setPendingSampleRequests (λ _, filter (λ r, id r ≠ i) prev)).

Definition handleRejectSampling (extra : nat) (i : nat) : M unit :=
  prev ← read pendingSampleRequests;
  let found := List.find (λ r, bool_decide (id r = i)) prev in
  rerun extra (callReject found (newError "Sampling request rejected")) ;;
  write (setPendingSampleRequests (λ _, filter (λ r, id r ≠ i) prev)).

(** ** Sequences of handler calls *)

Inductive Action :=
| OnPendingRequest (req : CreateMessageRequest) (resolve reject : Handle)
| HandleApproveSampling (i : nat) (result : CreateMessageResult)
| HandleRejectSampling (i : nat)
| ClearError (tabKey : string)
| ListResources (reply : Outcome ListResourcesResult)
| ListResourceTemplates (reply : Outcome ListResourceTemplatesResult)
| ListPrompts (reply : Outcome ListPromptsResult)
| ListTools (reply : Outcome ListToolsResult)
| ClearResources
| ClearResourceTemplates
| ClearPrompts
| ClearTools
| CallTool (name : string) (arguments : list (string * string))
    (reply : Outcome CompatibilityCallToolResult).

(** A handler call in which React runs each updater once, as it does in a
    production build. *)
Definition perform (a : Action) : M unit :=
  match a with
  | OnPendingRequest req resolve reject => onPendingRequest 0 req resolve reject
  | HandleApproveSampling i result => handleApproveSampling 0 i result
  | HandleRejectSampling i => handleRejectSampling 0 i
  | ClearError tabKey => clearError tabKey
  | ListResources reply => listResources reply
  | ListResourceTemplates reply => listResourceTemplates reply
  | ListPrompts reply => listPrompts reply
  | ListTools reply => listTools reply
  | ClearResources => clearResources
  | ClearResourceTemplates => clearResourceTemplates
  | ClearPrompts => clearPrompts
  | ClearTools => clearTools
  | CallTool name arguments reply => callTool name arguments reply
  end.

(** The state after the handler has run, whether it returned or threw. *)
Definition step (s : AppState) (a : Action) : AppState := (perform a s).2.

Definition run (acts : list Action) (s : AppState) : AppState := foldl step s acts.

(** A handler call together with the number of extra times React calls the
    updater the handler passes.  Only the three sampling handlers pass an
    updater that does more than return a value; for every other handler a
    repeated call of its updaters changes nothing. *)
Definition performRuns (a : Action) (extra : nat) : M unit :=
  match a with
  | OnPendingRequest req resolve reject => onPendingRequest extra req resolve reject
  | HandleApproveSampling i result => handleApproveSampling extra i result
  | HandleRejectSampling i => handleRejectSampling extra i
  | _ => perform a
  end.

Definition stepRuns (s : AppState) (call : Action * nat) : AppState :=
  (performRuns call.1 call.2 s).2.

Definition runRuns (calls : list (Action * nat)) (s : AppState) : AppState :=
  foldl stepRuns s calls.

(** ** What the effect log says *)

(** Progress tokens attached to the [tools/call] requests, in send order. *)
Definition progressTokens (log : list Effect) : list nat :=
  omap (λ ev, match ev with
              | Sent {| params := ParamsCall _ _ token |} => Some token
              | _ => None
              end) log.

(** Ids given to sampling requests, in arrival order. *)
Definition assignedIds (log : list Effect) : list nat :=
  omap (λ ev, match ev with Queued r => Some (id r) | _ => None end) log.

(** Capability invocations on the queue entry with id [i]. *)
Definition settles (i : nat) (ev : Effect) : bool :=
  match ev with
  | Resolved r _ | Rejected r _ => bool_decide (id r = i)
  | _ => false
  end.

Definition invocations (i : nat) (log : list Effect) : nat :=
  length (List.filter (settles i) log).

(** The request [callTool] builds in state [s]. *)
Definition toolsCall (name : string) (arguments : list (string * string)) (s : AppState) :
    ClientRequest :=
  {| method := "tools/call"; params := ParamsCall name arguments (progressTokenRef s) |}.

(** [n] successive list calls, each answered with one page. *)
Definition listResourcesPages (pages : list ListResourcesResult) : list Action :=
  (λ page, ListResources (Returned page)) <$> pages.
Definition listResourceTemplatesPages (pages : list ListResourceTemplatesResult) : list Action :=
  (λ page, ListResourceTemplates (Returned page)) <$> pages.
Definition listPromptsPages (pages : list ListPromptsResult) : list Action :=
  (λ page, ListPrompts (Returned page)) <$> pages.
Definition listToolsPages (pages : list ListToolsResult) : list Action :=
  (λ page, ListTools (Returned page)) <$> pages.

(** ** Notions used to state the queue properties *)

(** [prev.find((r) => r.id === id)] on the current queue. *)
Definition lookupPending (i : nat) (s : AppState) : option PendingSampleRequest :=
  List.find (λ r, bool_decide (id r = i)) (pendingSampleRequests s).

Definition queuedIds (s : AppState) : list nat := id <$> pendingSampleRequests s.

(** An approve or reject call for id [i]. *)
Definition decides (i : nat) (a : Action) : Prop :=
  match a with
  | HandleApproveSampling j _ | HandleRejectSampling j => j = i
  | _ => False
  end.

(** Queue ids are distinct and below the counter, and an id has been settled
    once exactly when it was handed out and is no longer queued. *)
Definition queueInvariant (s : AppState) : Prop :=
  NoDup (queuedIds s)
  ∧ (∀ i, i ∈ queuedIds s → i < nextRequestId s)
  ∧ ∀ i, invocations i (effects s)
         = if decide (i < nextRequestId s ∧ i ∉ queuedIds s) then 1 else 0.

End App.

Module MCPServerButton.

(** Modelled from the spec: the enumeration [McpConnectionState] is declared
    in types/mcp.types, which is not among the sources; the spec gives the
    four connection states. *)
Inductive McpConnectionState := Stopped | Starting | Running | Failed.

#[export] Instance McpConnectionState_eq_dec : EqDecision McpConnectionState.
Proof. solve_decision. Defined.

(** Modelled from the spec: the per-server record delivered by the manager
    context, with the fields the component reads ([id], [label], [status],
    [error] and the optional [tools]). *)
Record ServerState := {
  id : string;
  label : option string;
  status : McpConnectionState;
  error : option string;
  tools : option (list App.Tool)
}.

(** [serverStates[id] && serverStates[id].status === Running] *)
Definition isRunning (serverStates : gmap string ServerState) (i : string) : bool :=
  match serverStates !! i with
  | Some state => bool_decide (status state = Running)
  | None => false
  end.

(** The effect that follows a change of [serverStates]: first the active
    ids that are still running, then the running servers not among them.
    [Object.entries] is [map_to_list]; the order in which it lists the
    servers only shows in the order of the appended ids. *)
Definition updatedActiveIds (serverStates : gmap string ServerState)
    (activeServerIds : list string) : list string :=
  filter (λ i, isRunning serverStates i) activeServerIds.

Definition newActiveIds (serverStates : gmap string ServerState)
    (activeServerIds : list string) : list string :=
  (filter (λ entry, status entry.2 = Running
                    ∧ entry.1 ∉ updatedActiveIds serverStates activeServerIds)
          (map_to_list serverStates)).*1.

(** [Some ids] is the call [setActiveServerIds(ids)]; [None] means the
    setter is not called. *)
Definition reconcile (serverStates : gmap string ServerState)
    (activeServerIds : list string) : option (list string) :=
  let updatedActiveIds := updatedActiveIds serverStates activeServerIds in
  let newActiveIds := newActiveIds serverStates activeServerIds in
  if decide (length updatedActiveIds ≠ length activeServerIds ∨ 0 < length newActiveIds)
  then Some (updatedActiveIds ++ newActiveIds)
  else None.

(** The active list once the effect has run. *)
Definition reconciled (serverStates : gmap string ServerState)
    (activeServerIds : list string) : list string :=
  default activeServerIds (reconcile serverStates activeServerIds).

Definition totalAvailableTools (serverStates : gmap string ServerState)
    (activeServerIds : list string) : nat :=
  foldl (λ count entry,
           match status entry.2, tools entry.2 with
           | Running, Some ts => count + length ts
           | _, _ => count
           end)
        0
        (filter (λ entry, entry.1 ∈ activeServerIds) (map_to_list serverStates)).

(** What one entry adds in the [reduce] of [totalAvailableTools]. *)
Definition contribution (state : ServerState) : nat :=
  match status state, tools state with
  | Running, Some ts => length ts
  | _, _ => 0
  end.

(** *** The same notions in the words of the specification *)

(** The ids whose connection is Running. *)
Definition runningIds (serverStates : gmap string ServerState) : gset string :=
  dom (filter (λ entry, status entry.2 = Running) serverStates).

(** [tools.length] of a server, nothing for a server without tools. *)
Definition toolsLength (state : option ServerState) : nat :=
  match state with
  | Some {| tools := Some ts |} => length ts
  | _ => 0
  end.

(** Sum of [tools.length] over the servers that are active and Running. *)
Definition totalTools_spec (serverStates : gmap string ServerState)
    (activeServerIds : list string) : nat :=
  sum_list_with (λ i, toolsLength (serverStates !! i))
    (elements (list_to_set activeServerIds ∩ runningIds serverStates : gset string)).

(** A manager with one running server with two tools, one stopped server,
    and one running server without a tool list. *)
Definition exampleStates : gmap string ServerState :=
  <["files" := {| id := "files"; label := None; status := Running; error := None;
                  tools := Some ["read"; "write"] |}]>
  (<["search" := {| id := "search"; label := Some "Search"; status := Stopped;
                    error := None; tools := None |}]>
  (<["clock" := {| id := "clock"; label := None; status := Running; error := None;
                   tools := None |}]> ∅)).

End MCPServerButton.

(** * Further notions on the [App] component *)

Module AppViews.
Import App.

Definition isCallTool (a : Action) : bool :=
  match a with CallTool _ _ _ => true | _ => false end.

Definition isOnPendingRequest (a : Action) : bool :=
  match a with OnPendingRequest _ _ _ => true | _ => false end.

(** A capability invocation, whatever the entry. *)
Definition isDecision (ev : Effect) : bool :=
  match ev with Resolved _ _ | Rejected _ _ => true | _ => false end.

(** The four paginated listings, each with its list and its cursor. *)
Inductive Listing :=
| ResourcesListing
| ResourceTemplatesListing
| PromptsListing
| ToolsListing.

#[export] Instance Listing_eq_dec : EqDecision Listing.
Proof. solve_decision. Defined.

Definition shown (c : Listing) (s : AppState) : list string * option string :=
  match c with
  | ResourcesListing => (resources s, nextResourceCursor s)
  | ResourceTemplatesListing => (resourceTemplates s, nextResourceTemplateCursor s)
  | PromptsListing => (prompts s, nextPromptCursor s)
  | ToolsListing => (tools s, nextToolCursor s)
  end.

Definition listMethod (c : Listing) : string :=
  match c with
  | ResourcesListing => "resources/list"
  | ResourceTemplatesListing => "resources/templates/list"
  | PromptsListing => "prompts/list"
  | ToolsListing => "tools/list"
  end.

(** The category under which a listing reports its errors: resource
    templates share the key of resources. *)
Definition listTabKey (c : Listing) : string :=
  match c with
  | ResourcesListing | ResourceTemplatesListing => "resources"
  | PromptsListing => "prompts"
  | ToolsListing => "tools"
  end.

(** The listing a list call asks for. *)
Definition listCallOf (a : Action) : option Listing :=
  match a with
  | ListResources _ => Some ResourcesListing
  | ListResourceTemplates _ => Some ResourceTemplatesListing
  | ListPrompts _ => Some PromptsListing
  | ListTools _ => Some ToolsListing
  | _ => None
  end.

(** The listing a handler writes: its list call or its clear. *)
Definition listingOf (a : Action) : option Listing :=
  match a with
  | ClearResources => Some ResourcesListing
  | ClearResourceTemplates => Some ResourceTemplatesListing
  | ClearPrompts => Some PromptsListing
  | ClearTools => Some ToolsListing
  | _ => listCallOf a
  end.

(** The failure a list call was answered with, if it failed. *)
Definition listFailure (a : Action) : option Thrown :=
  match a with
  | ListResources (Raised e) | ListResourceTemplates (Raised e)
  | ListPrompts (Raised e) | ListTools (Raised e) => Some e
  | _ => None
  end.

(** The [nextCursor] of the page a list call was answered with, if it
    succeeded. *)
Definition pageCursor (a : Action) : option (option string) :=
  match a with
  | ListResources (Returned page) => Some (lr_nextCursor page)
  | ListResourceTemplates (Returned page) => Some (lrt_nextCursor page)
  | ListPrompts (Returned page) => Some (lp_nextCursor page)
  | ListTools (Returned page) => Some (lt_nextCursor page)
  | _ => None
  end.

(** What a reply leaves in its category's error entry: [null] after a
    success, the error string after a failure. *)
Definition replyError {R} (reply : Outcome R) : option string :=
  match reply with
  | Returned _ => None
  | Raised e => Some (errorString e)
  end.

(** The error entry a handler writes, if it writes one. *)
Definition errorWrite (a : Action) : option (string * option string) :=
  match a with
  | ClearError k => Some (k, None)
  | ListResources reply => Some ("resources", replyError reply)
  | ListResourceTemplates reply => Some ("resources", replyError reply)
  | ListPrompts reply => Some ("prompts", replyError reply)
  | ListTools reply => Some ("tools", replyError reply)
  | CallTool _ _ reply => Some ("tools", replyError reply)
  | _ => None
  end.

(** The value most recently written under key [k] by a sequence of
    handler calls. *)
Definition lastErrorWrite (k : string) (acts : list Action) : option (option string) :=
  snd <$> last (filter (λ w, w.1 = k) (omap errorWrite acts)).

(** The request a list call for [c] sends from state [s]. *)
Definition listRequest (c : Listing) (s : AppState) : ClientRequest :=
  {| method := listMethod c; params := cursorParams (shown c s).2 |}.

(** ** Updaters that run more than once

    What a sequence of handler calls leaves behind when each call says how
    many further times React runs its updater. *)

(** Ids of the entries whose capability has been called, one per call. *)
Definition settledIds (log : list Effect) : list nat :=
  omap (λ ev, match ev with
              | Resolved r _ | Rejected r _ => Some (id r)
              | _ => None
              end) log.

(** Ids of the entries that have been decided, each listed once. *)
Definition decidedIds (log : list Effect) : list nat := remove_dups (settledIds log).

(** The calls of one handler among a sequence of calls. *)
Definition callsOf (which : Action → bool) (calls : list (Action * nat)) :
    list (Action * nat) :=
  List.filter (λ call, which call.1) calls.

(** Number of times the updater of [onPendingRequest] has run. *)
Definition enqueueRuns (calls : list (Action * nat)) : nat :=
  sum_list_with (λ call, S call.2) (callsOf isOnPendingRequest calls).

(** The state with further effects logged. *)
Definition recordAll (evs : list Effect) (s : AppState) : AppState :=
  let 'Build_AppState a b c d e f g h i j k l m log := s in
  Build_AppState a b c d e f g h i j k l m (log ++ evs).

(** What holds of the queue however often the updaters run. *)
Definition queueRunsInvariant (s : AppState) : Prop :=
  NoDup (queuedIds s)
  ∧ NoDup (assignedIds (effects s))
  ∧ (∀ i, i ∈ assignedIds (effects s) → i < nextRequestId s)
  ∧ (∀ i, i ∈ assignedIds (effects s)
          ↔ i ∈ queuedIds s ∨ i ∈ settledIds (effects s))
  ∧ (∀ i, i ∈ queuedIds s → i ∉ settledIds (effects s)).

End AppViews.

(** * The remaining handlers of [App]

    The state and handlers of App.tsx outside the request core: reading a
    resource or a prompt, resource subscriptions, the log level, the
    notification logs, the selections, the handlers the tabs receive as
    props, and the choice of the default tab. *)

Module AppHandlers.
Import App.

Definition ServerNotification := string.
Definition StdErrNotification := string.
Definition LoggingLevel := string.

(** Requests built outside the listings and [callTool]. *)
Inductive Request :=
| ResourcesRead (uri : string)
| ResourcesSubscribe (uri : string)
| ResourcesUnsubscribe (uri : string)
| PromptsGet (name : string) (arguments : list (string * string))
| Ping
| LoggingSetLevel (level : LoggingLevel).

(** The component only shows a read resource or a rendered prompt as
    [JSON.stringify(response, null, 2)]; the response is modelled by that
    text. *)
Record ReadResourceResult := { rr_json : string }.
Record GetPromptResult := { gp_json : string }.

Record Component := {
  app : AppState;
  resourceContent : string;
  promptContent : string;
  resourceSubscriptions : gset string;
  logLevel : LoggingLevel;
  notifications : list ServerNotification;
  stdErrNotifications : list StdErrNotification;
  selectedResource : option Resource;
  selectedPrompt : option Prompt;
  selectedTool : option Tool;
  requests : list Request
}.

Definition mounted : Component := {|
  app := initial;
  resourceContent := "";
  promptContent := "";
  resourceSubscriptions := ∅;
  logLevel := "debug";
  notifications := [];
  stdErrNotifications := [];
  selectedResource := None;
  selectedPrompt := None;
  selectedTool := None;
  requests := []
|}.

Definition setApp (v : AppState) (c : Component) : Component :=
  let 'Build_Component _ b d e f g h i j k l := c in
  Build_Component v b d e f g h i j k l.
Definition setResourceContent (v : string) (c : Component) : Component :=
  let 'Build_Component a _ d e f g h i j k l := c in
  Build_Component a v d e f g h i j k l.
Definition setPromptContent (v : string) (c : Component) : Component :=
  let 'Build_Component a b _ e f g h i j k l := c in
  Build_Component a b v e f g h i j k l.
Definition setResourceSubscriptions (v : gset string) (c : Component) : Component :=
  let 'Build_Component a b d _ f g h i j k l := c in
  Build_Component a b d v f g h i j k l.
Definition setLogLevel (v : LoggingLevel) (c : Component) : Component :=
  let 'Build_Component a b d e _ g h i j k l := c in
  Build_Component a b d e v g h i j k l.
(** The two notification logs are only ever written through an updater of
    the previous value. *)
Definition setNotifications
    (u : list ServerNotification → list ServerNotification) (c : Component) : Component :=
  let 'Build_Component a b d e f g h i j k l := c in
  Build_Component a b d e f (u g) h i j k l.
Definition setStdErrNotifications
    (u : list StdErrNotification → list StdErrNotification) (c : Component) : Component :=
  let 'Build_Component a b d e f g h i j k l := c in
  Build_Component a b d e f g (u h) i j k l.
Definition setSelectedResource (v : option Resource) (c : Component) : Component :=
  let 'Build_Component a b d e f g h _ j k l := c in
  Build_Component a b d e f g h v j k l.
Definition setSelectedPrompt (v : option Prompt) (c : Component) : Component :=
  let 'Build_Component a b d e f g h i _ k l := c in
  Build_Component a b d e f g h i v k l.
Definition setSelectedTool (v : option Tool) (c : Component) : Component :=
  let 'Build_Component a b d e f g h i j _ l := c in
  Build_Component a b d e f g h i j v l.
Definition logRequest (req : Request) (c : Component) : Component :=
  let 'Build_Component a b d e f g h i j k l := c in
  Build_Component a b d e f g h i j k (l ++ [req]).

(** ** Computations over the whole component *)

Definition C (A : Type) : Type := Component → Outcome A * Component.

#[export] Instance C_ret : MRet C := λ A a c, (Returned a, c).
#[export] Instance C_bind : MBind C := λ A B k m c,
  match m c with
  | (Returned a, c') => k a c'
  | (Raised e, c') => (Raised e, c')
  end.

Definition raise {A} (e : Thrown) : C A := λ c, (Raised e, c).

Definition catching {A} (body : C A) (handler : Thrown → C A) : C A := λ c,
  match body c with
  | (Returned a, c') => (Returned a, c')
  | (Raised e, c') => handler e c'
  end.

Definition look {A} (field : Component → A) : C A := λ c, (Returned (field c), c).
Definition update (f : Component → Component) : C unit := λ c, (Returned tt, f c).

(** A handler of the request core, run on the core part of the state. *)
Definition core {A} (m : M A) : C A := λ c,
  let (outcome, s) := m (app c) in (outcome, setApp s c).

(** An [async] function called without [await]: it runs, and a rejection
    of its promise does not reach the caller. *)
Definition detached {A} (m : C A) : C unit := λ c, (Returned tt, (m c).2).

Definition makeRequest {R} (req : Request) (reply : Outcome R) : C R := λ c,
  (reply, logRequest req c).

(** [sendMCPRequest] on the requests of this module. *)
Definition sendMCPRequest {R} (req : Request) (reply : Outcome R)
    (tabKey : option string) : C R :=
  catching
    (response ← makeRequest req reply;
     core (whenDefined tabKey clearError) ;;
     mret response)
    (λ e,
      let errorString := errorString e in
      core (whenDefined tabKey (λ k,
        write (setErrors (λ prev, <[k := Some errorString]> prev)))) ;;
      raise e).

(** ** Handlers *)

(** The component with [errors.resources] set to [v]. *)
Definition resourcesError (v : option string) (c : Component) : Component :=
  setApp (setErrors (λ prev, <["resources" := v]> prev) (app c)) c.

Definition readResource (uri : string) (reply : Outcome ReadResourceResult) : C unit :=
  response ← sendMCPRequest (ResourcesRead uri) reply (Some "resources");
  update (setResourceContent (rr_json response)).

Definition subscribeToResource (uri : string) (reply : Outcome unit) : C unit :=
  subscriptions ← look resourceSubscriptions;
  if decide (uri ∈ subscriptions) then mret tt
  else
    sendMCPRequest (ResourcesSubscribe uri) reply (Some "resources") ;;
    update (setResourceSubscriptions (subscriptions ∪ {[uri]})).

Definition unsubscribeFromResource (uri : string) (reply : Outcome unit) : C unit :=
  subscriptions ← look resourceSubscriptions;
  if decide (uri ∈ subscriptions) then
    sendMCPRequest (ResourcesUnsubscribe uri) reply (Some "resources") ;;
    update (setResourceSubscriptions (subscriptions ∖ {[uri]}))
  else mret tt.

Definition getPrompt (name : string) (arguments : list (string * string))
    (reply : Outcome GetPromptResult) : C unit :=
  response ← sendMCPRequest (PromptsGet name arguments) reply (Some "prompts");
  update (setPromptContent (gp_json response)).

Definition sendLogLevelRequest (level : LoggingLevel) (reply : Outcome unit) : C unit :=
  sendMCPRequest (LoggingSetLevel level) reply None ;;
  update (setLogLevel level).

Definition onNotification (notification : ServerNotification) : C unit :=
  update (setNotifications (λ prev, prev ++ [notification])).

Definition onStdErrNotification (notification : StdErrNotification) : C unit :=
  update (setStdErrNotifications (λ prev, prev ++ [notification])).

(** ** What the user and the connection can do

    One constructor per handler the component hands to its children or to
    the connection hook, with the server's answer where a request is sent
    and, for the three sampling handlers, the number of further runs of the
    updater. *)
Inductive Event :=
| Notification (notification : ServerNotification)
| StdErr (notification : StdErrNotification)
| PendingRequest (extra : nat) (req : CreateMessageRequest) (resolve reject : Handle)
| Approve (extra : nat) (i : nat) (result : CreateMessageResult)
| Reject (extra : nat) (i : nat)
| ClickListResources (reply : Outcome ListResourcesResult)
| ClickClearResources
| ClickListResourceTemplates (reply : Outcome ListResourceTemplatesResult)
| ClickClearResourceTemplates
| ClickReadResource (uri : string) (reply : Outcome ReadResourceResult)
| SelectResource (resource : option Resource)
| ClickSubscribe (uri : string) (reply : Outcome unit)
| ClickUnsubscribe (uri : string) (reply : Outcome unit)
| ClickListPrompts (reply : Outcome ListPromptsResult)
| ClickClearPrompts
| ClickGetPrompt (name : string) (arguments : list (string * string))
    (reply : Outcome GetPromptResult)
| SelectPrompt (prompt : option Prompt)
| ClickListTools (reply : Outcome ListToolsResult)
| ClickClearTools
| ClickCallTool (name : string) (arguments : list (string * string))
    (reply : Outcome CompatibilityCallToolResult)
| SelectTool (tool : option Tool)
| ClickPing (reply : Outcome unit)
| ChangeLogLevel (level : LoggingLevel) (reply : Outcome unit).

(** The props of [ResourcesTab], [PromptsTab], [ToolsTab], [PingTab],
    [SamplingTab] and [Sidebar], and the callbacks of [useConnection]. *)
Definition handle (ev : Event) : C unit :=
  match ev with
  | Notification notification => onNotification notification
  | StdErr notification => onStdErrNotification notification
  | PendingRequest extra req resolve reject =>
      core (onPendingRequest extra req resolve reject)
  | Approve extra i result => core (handleApproveSampling extra i result)
  | Reject extra i => core (handleRejectSampling extra i)
  | ClickListResources reply =>
      core (clearError "resources") ;; detached (core (listResources reply))
  | ClickClearResources => core clearResources
  | ClickListResourceTemplates reply =>
      core (clearError "resources") ;; detached (core (listResourceTemplates reply))
  | ClickClearResourceTemplates => core clearResourceTemplates
  | ClickReadResource uri reply =>
      core (clearError "resources") ;; detached (readResource uri reply)
  | SelectResource resource =>
      core (clearError "resources") ;; update (setSelectedResource resource)
  | ClickSubscribe uri reply =>
      core (clearError "resources") ;; detached (subscribeToResource uri reply)
  | ClickUnsubscribe uri reply =>
      core (clearError "resources") ;; detached (unsubscribeFromResource uri reply)
  | ClickListPrompts reply =>
      core (clearError "prompts") ;; detached (core (listPrompts reply))
  | ClickClearPrompts => core clearPrompts
  | ClickGetPrompt name arguments reply =>
      core (clearError "prompts") ;; detached (getPrompt name arguments reply)
  | SelectPrompt prompt =>
      core (clearError "prompts") ;; update (setSelectedPrompt prompt)
  | ClickListTools reply =>
      core (clearError "tools") ;; detached (core (listTools reply))
  | ClickClearTools => core clearTools
  | ClickCallTool name arguments reply =>
      core (clearError "tools") ;;
      core (write (setToolResult None)) ;;
      core (callTool name arguments reply)
  | SelectTool tool =>
      core (clearError "tools") ;;
      update (setSelectedTool tool) ;;
      core (write (setToolResult None))
  | ClickPing reply => detached (sendMCPRequest Ping reply None)
  | ChangeLogLevel level reply => sendLogLevelRequest level reply
  end.

Definition react (c : Component) (ev : Event) : Component := (handle ev c).2.

Definition session (events : list Event) (c : Component) : Component :=
  foldl react c events.

(** ** Reading a sequence of events *)

Definition arrivedNotifications (events : list Event) : list ServerNotification :=
  omap (λ ev, match ev with Notification n => Some n | _ => None end) events.

Definition arrivedStdErr (events : list Event) : list StdErrNotification :=
  omap (λ ev, match ev with StdErr n => Some n | _ => None end) events.


(** The level of a log-level update that the server accepts. *)
Definition acceptedLogLevel (ev : Event) : option LoggingLevel :=
  match ev with
  | ChangeLogLevel level (Returned _) => Some level
  | _ => None
  end.

(** The category and outcome of the request a click sends whatever the
    state. *)
Definition clickOutcome (ev : Event) : option (string * option string) :=
  match ev with
  | ClickListResources (Returned _) | ClickListResourceTemplates (Returned _)
  | ClickReadResource _ (Returned _) => Some ("resources", None)
  | ClickListResources (Raised e) | ClickListResourceTemplates (Raised e)
  | ClickReadResource _ (Raised e) => Some ("resources", Some (errorString e))
  | ClickListPrompts (Returned _) | ClickGetPrompt _ _ (Returned _) => Some ("prompts", None)
  | ClickListPrompts (Raised e) | ClickGetPrompt _ _ (Raised e) =>
      Some ("prompts", Some (errorString e))
  | ClickListTools (Returned _) | ClickCallTool _ _ (Returned _) => Some ("tools", None)
  | ClickListTools (Raised e) | ClickCallTool _ _ (Raised e) =>
      Some ("tools", Some (errorString e))
  | _ => None
  end.

(** ** Subscription requests in flight

    [subscribeToResource] and [unsubscribeFromResource] are suspended at
    their [await] until the server answers, and other handlers run in
    between.  A suspended call keeps the [resourceSubscriptions] of the
    render that created it: that set, not the current one, is what it
    clones when it resumes. *)














(** ** The default tab *)

(** A capability announced by the server: an object, kept as opaque text. *)
Definition Capability := string.

(** [hash.slice(1)] *)
Definition slice1 (text : string) : string :=
  match text with
  | String _ rest => rest
  | EmptyString => ""
  end.

(** [serverCapabilities?.key], read as a condition: capabilities are
    objects, so a key that is present is truthy. *)
Definition announced (serverCapabilities : option (gmap string Capability))
    (key : string) : bool :=
  match serverCapabilities with
  | Some capabilities => bool_decide (is_Some (capabilities !! key))
  | None => false
  end.

(** [hash] is [window.location.hash]: empty, or [#] followed by the
    fragment. *)
Definition getDefaultTabValue (hash : string)
    (serverCapabilities : option (gmap string Capability)) : string :=
  let fromHash :=
    if decide (hash = "") then None
    else
      let hash := slice1 hash in
      if decide (hash ∈ (map_to_list (default ∅ serverCapabilities)).*1)
      then Some hash else None in
  match fromHash with
  | Some tab => tab
  | None =>
      if announced serverCapabilities "resources" then "resources"
      else if announced serverCapabilities "prompts" then "prompts"
      else if announced serverCapabilities "tools" then "tools"
      else "ping"
  end.

End AppHandlers.

(** * The remaining handlers of [MCPServerButton]

    Toggling one server, selecting and deselecting all, the events that
    change the menu, and the tool badge. *)

Module ServerMenu.
Import MCPServerButton.

(** Calls out of the component: [connectToServer] and
    [disconnectFromServer] of the manager context, and [toast.success]. *)
Inductive Call :=
| Connect (i : string)
| Disconnect (i : string)
| Toast (message : string).

(** [serverStates[id]?.status] *)
Definition statusOf (serverStates : gmap string ServerState) (i : string) :
    option McpConnectionState :=
  status <$> serverStates !! i.

(** Each handler gives the new active list and the calls it made. *)
Definition toggleServer (serverStates : gmap string ServerState)
    (activeServerIds : list string) (i : string) : list string * list Call :=
  let currentStatus := statusOf serverStates i in
  let isActive := bool_decide (i ∈ activeServerIds) in
  if isActive then
    (filter (λ serverId, serverId ≠ i) activeServerIds, [Disconnect i])
  else
    match currentStatus with
    | Some Running => (activeServerIds ++ [i], [])
    | Some Stopped | Some Failed => (activeServerIds ++ [i], [Connect i])
    | _ => (activeServerIds, [])
    end.

Definition selectAllServers (serverStates : gmap string ServerState)
    (activeServerIds : list string) : list string * list Call :=
  let availableServerIds := (map_to_list serverStates).*1 in
  (availableServerIds,
   (Connect <$> filter (λ i, statusOf serverStates i ≠ Some Running
                             ∧ statusOf serverStates i ≠ Some Starting)
                       availableServerIds)
   ++ [Toast "Connecting to all servers"]).

Definition deselectAllServers (serverStates : gmap string ServerState)
    (activeServerIds : list string) : list string * list Call :=
  ([], (Disconnect <$> activeServerIds) ++ [Toast "Disconnected from all servers"]).

(** ** The menu over time *)

Record Menu := {
  states : gmap string ServerState;
  active : list string;
  calls : list Call
}.

(** First render: no server states yet, nothing active. *)
Definition opened : Menu := {| states := ∅; active := []; calls := [] |}.

(** The manager delivers new server states, which runs the reconciliation
    effect, or the user picks an entry of the menu. *)
Inductive MenuEvent :=
| StatesChanged (serverStates : gmap string ServerState)
| Toggle (i : string)
| SelectAll
| DeselectAll.

Definition handled (handler : gmap string ServerState → list string → list string * list Call)
    (m : Menu) : Menu :=
  let result := handler (states m) (active m) in
  {| states := states m; active := result.1; calls := calls m ++ result.2 |}.

Definition menuStep (m : Menu) (ev : MenuEvent) : Menu :=
  match ev with
  | StatesChanged serverStates =>
      {| states := serverStates;
         active := reconciled serverStates (active m);
         calls := calls m |}
  | Toggle i => handled (λ serverStates ids, toggleServer serverStates ids i) m
  | SelectAll => handled selectAllServers m
  | DeselectAll => handled deselectAllServers m
  end.

Definition menuRun (events : list MenuEvent) (m : Menu) : Menu := foldl menuStep m events.

(** ** The tool badge *)

(** [`${n} tool${n !== 1 ? "s" : ""}`], shown when
    [activeCount > 0 && totalAvailableTools > 0]. *)
Definition toolBadge (serverStates : gmap string ServerState)
    (activeServerIds : list string) : option string :=
  let activeCount := length activeServerIds in
  let totalAvailableTools := totalAvailableTools serverStates activeServerIds in
  if decide (0 < activeCount ∧ 0 < totalAvailableTools)
  then Some (pretty totalAvailableTools +:+ " tool"
             +:+ (if decide (totalAvailableTools ≠ 1) then "s" else ""))
  else None.

(** [(state as any).tools?.length || 0], the figure on a server's row. *)
Definition toolCount (state : ServerState) : nat :=
  match tools state with
  | Some ts => length ts
  | None => 0
  end.

End ServerMenu.

(** * Properties of the [App] component *)

Module AppFacts.
Import App.

(** ** The dispatcher and the per-category errors *)

Lemma errorString_message (e : Thrown) (m : string) :
  message e = Some m → errorString e = m.
Proof. unfold errorString. by intros ->. Qed.

Lemma sendMCPRequest_returned {R} (req : ClientRequest) (r : R) (tabKey : option string)
    (s : AppState) :
  sendMCPRequest req (Returned r) tabKey s
  = (Returned r,
     match tabKey with
     | Some k => setErrors (λ prev, <[k := None]> prev) (record (Sent req) s)
     | None => record (Sent req) s
     end).
Proof. by destruct tabKey. Qed.

Lemma sendMCPRequest_raised {R} (req : ClientRequest) (e : Thrown) (tabKey : option string)
    (s : AppState) :
  sendMCPRequest (R := R) req (Raised e) tabKey s
  = (Raised e,
     match tabKey with
     | Some k => setErrors (λ prev, <[k := Some (errorString e)]> prev) (record (Sent req) s)
     | None => record (Sent req) s
     end).
Proof. by destruct tabKey. Qed.

Lemma errors_setErrors u (s : AppState) : errors (setErrors u s) = u (errors s).
Proof. by destruct s. Qed.

Lemma errors_record ev (s : AppState) : errors (record ev s) = errors s.
Proof. by destruct s. Qed.

(** C3: a request dispatched with category [c] clears the error entry of [c]
    when it succeeds and sets it to the error string when it fails; in both
    cases the entry of every other category keeps its value. *)
Theorem sendMCPRequest_category_frame {R} (req : ClientRequest) (reply : Outcome R)
    (c : string) (s : AppState) :
  let s' := (sendMCPRequest req reply (Some c) s).2 in
  errors s' !! c
  = Some (match reply with Returned _ => None | Raised e => Some (errorString e) end)
  ∧ ∀ c' : string, c' ≠ c → errors s' !! c' = errors s !! c'.
Proof.
  destruct reply as [r|e]; cbn zeta.
  - rewrite sendMCPRequest_returned. cbn [snd].
    rewrite errors_setErrors, errors_record. split.
    + apply lookup_insert_eq.
    + intros c' Hne. by apply lookup_insert_ne.
  - rewrite sendMCPRequest_raised. cbn [snd].
    rewrite errors_setErrors, errors_record. split.
    + apply lookup_insert_eq.
    + intros c' Hne. by apply lookup_insert_ne.
Qed.

Lemma sendMCPRequest_category_frame_witness :
  let failed := (sendMCPRequest (R := unit) {| method := "tools/list"; params := ParamsEmpty |}
                   (Raised (newError "transport closed")) (Some "tools") initial).2 in
  let s' := (sendMCPRequest {| method := "resources/list"; params := ParamsEmpty |}
               (Returned tt) (Some "resources") failed).2 in
  errors s' !! "resources" = Some None
  ∧ errors s' !! "tools" = Some (Some "transport closed").
Proof.
  cbn zeta.
  pose proof (sendMCPRequest_category_frame
    {| method := "resources/list"; params := ParamsEmpty |} (Returned tt) "resources"
    ((sendMCPRequest (R := unit) {| method := "tools/list"; params := ParamsEmpty |}
        (Raised (newError "transport closed")) (Some "tools") initial).2)) as [Hc Hframe].
  split; [exact Hc|].
  rewrite (Hframe "tools"); [reflexivity|discriminate].
Defined.

(** C5: a failing request that carries a category hands the very same
    failure to its caller and records the error's message under that
    category: the message of the caught value when it has one, its string
    rendering otherwise.  Whatever was recorded there before is overwritten,
    and the request has been sent. *)
Theorem sendMCPRequest_failure_recorded_and_rethrown {R} (req : ClientRequest)
    (e : Thrown) (c : string) (s : AppState) :
  let result := sendMCPRequest (R := R) req (Raised e) (Some c) s in
  result.1 = Raised e
  ∧ errors result.2 !! c = Some (Some (errorString e))
  ∧ (∀ m : string, message e = Some m → errors result.2 !! c = Some (Some m))
  ∧ (message e = None → errors result.2 !! c = Some (Some (toString e)))
  ∧ effects result.2 = effects s ++ [Sent req].
Proof.
  cbn zeta. rewrite sendMCPRequest_raised. cbn [fst snd].
  rewrite errors_setErrors.
  split_and!; [done|apply lookup_insert_eq| | |by destruct s].
  - intros m Hm. rewrite (errorString_message e m Hm). apply lookup_insert_eq.
  - intros Hm. unfold errorString. rewrite Hm. apply lookup_insert_eq.
Qed.

Lemma sendMCPRequest_failure_recorded_and_rethrown_witness :
  let stale := (sendMCPRequest (R := unit) {| method := "resources/list"; params := ParamsEmpty |}
                  (Raised (newError "timeout")) (Some "resources") initial).2 in
  let result := sendMCPRequest (R := unit) {| method := "resources/list"; params := ParamsEmpty |}
                  (Raised (newError "transport closed")) (Some "resources") stale in
  errors stale !! "resources" = Some (Some "timeout")
  ∧ result.1 = Raised (newError "transport closed")
  ∧ errors result.2 !! "resources" = Some (Some "transport closed")
  ∧ ∀ silent : string,
      errors (sendMCPRequest (R := unit) {| method := "resources/list"; params := ParamsEmpty |}
                (Raised {| message := None; toString := silent |})
                (Some "resources") stale).2 !! "resources"
      = Some (Some silent).
Proof.
  cbn zeta.
  set (req := {| method := "resources/list"; params := ParamsEmpty |}).
  destruct (sendMCPRequest_failure_recorded_and_rethrown (R := unit) req
              (newError "timeout") "resources" initial) as (_ & _ & Hstale & _).
  destruct (sendMCPRequest_failure_recorded_and_rethrown (R := unit) req
              (newError "transport closed") "resources"
              (sendMCPRequest (R := unit) req (Raised (newError "timeout"))
                 (Some "resources") initial).2) as (Hraised & _ & Hmessage & _).
  split_and!.
  - apply Hstale. reflexivity.
  - exact Hraised.
  - apply Hmessage. reflexivity.
  - intros silent.
    destruct (sendMCPRequest_failure_recorded_and_rethrown (R := unit) req
                {| message := None; toString := silent |} "resources"
                (sendMCPRequest (R := unit) req (Raised (newError "timeout"))
                   (Some "resources") initial).2) as (_ & _ & _ & Hsilent & _).
    apply Hsilent. reflexivity.
Defined.

(** ** Tool invocation *)

Lemma callTool_returned name arguments (r : CompatibilityCallToolResult) (s : AppState) :
  callTool name arguments (Returned r) s
  = (Returned tt,
     setToolResult (Some r)
       (setErrors (λ prev, <["tools" := None]> prev)
          (record (Sent (toolsCall name arguments s))
             (setProgressTokenRef (S (progressTokenRef s)) s)))).
Proof. reflexivity. Qed.

Lemma callTool_raised name arguments (e : Thrown) (s : AppState) :
  callTool name arguments (Raised e) s
  = (Returned tt,
     setToolResult (Some (CallToolResult [TextContent (errorString e)] (Some true)))
       (setErrors (λ prev, <["tools" := Some (errorString e)]> prev)
          (record (Sent (toolsCall name arguments s))
             (setProgressTokenRef (S (progressTokenRef s)) s)))).
Proof. reflexivity. Qed.

Lemma toolResult_setToolResult v (s : AppState) : toolResult (setToolResult v s) = v.
Proof. by destruct s. Qed.

(** C10: [callTool] always returns to its caller; when the request fails
    with [e], the stored tool result is the error result whose only content
    item is the text of [e]'s message. *)
Theorem callTool_never_throws name arguments (reply : Outcome CompatibilityCallToolResult)
    (s : AppState) :
  (callTool name arguments reply s).1 = Returned tt
  ∧ ∀ e : Thrown, reply = Raised e →
      toolResult (callTool name arguments reply s).2
      = Some (CallToolResult [TextContent (errorString e)] (Some true))
      ∧ ∀ m : string, message e = Some m → errorString e = m.
Proof.
  split.
  - destruct reply; [by rewrite callTool_returned | by rewrite callTool_raised].
  - intros e ->. rewrite callTool_raised. cbn [snd].
    rewrite toolResult_setToolResult. split; [done|].
    apply errorString_message.
Qed.

Lemma callTool_never_throws_witness :
  toolResult (callTool "echo" [("text", "hi")] (Raised (newError "timeout")) initial).2
  = Some (CallToolResult [TextContent "timeout"] (Some true)).
Proof.
  destruct (callTool_never_throws "echo" [("text", "hi")] (Raised (newError "timeout")) initial)
    as [_ Hfail].
  destruct (Hfail (newError "timeout") eq_refl) as [Hresult Hmessage].
  rewrite Hresult. by rewrite (Hmessage "timeout" eq_refl).
Defined.

(** ** Paginated listings *)

Lemma step_listResources (page : ListResourcesResult) (s : AppState) :
  resources (step s (ListResources (Returned page)))
  = resources s ++ default [] (lr_resources page)
  ∧ nextResourceCursor (step s (ListResources (Returned page))) = lr_nextCursor page.
Proof. by destruct s. Qed.

Lemma step_listResourceTemplates (page : ListResourceTemplatesResult) (s : AppState) :
  resourceTemplates (step s (ListResourceTemplates (Returned page)))
  = resourceTemplates s ++ default [] (lrt_resourceTemplates page)
  ∧ nextResourceTemplateCursor (step s (ListResourceTemplates (Returned page)))
    = lrt_nextCursor page.
Proof. by destruct s. Qed.

Lemma step_listPrompts (page : ListPromptsResult) (s : AppState) :
  prompts (step s (ListPrompts (Returned page))) = lp_prompts page
  ∧ nextPromptCursor (step s (ListPrompts (Returned page))) = lp_nextCursor page.
Proof. by destruct s. Qed.

Lemma step_listTools (page : ListToolsResult) (s : AppState) :
  tools (step s (ListTools (Returned page))) = lt_tools page
  ∧ nextToolCursor (step s (ListTools (Returned page))) = lt_nextCursor page.
Proof. by destruct s. Qed.

Lemma run_cons (a : Action) (acts : list Action) (s : AppState) :
  run (a :: acts) s = run acts (step s a).
Proof. reflexivity. Qed.

Lemma run_snoc (acts : list Action) (a : Action) (s : AppState) :
  run (acts ++ [a]) s = step (run acts s) a.
Proof. apply foldl_snoc. Qed.

(** [listResources] appends: n pages give their concatenation. *)
Lemma listResources_accumulates (pages : list ListResourcesResult) (s : AppState) :
  resources (run (listResourcesPages pages) s)
  = resources s ++ concat ((λ page, default [] (lr_resources page)) <$> pages).
Proof.
  revert s. induction pages as [|page pages IH]; intros s.
  - cbn. by rewrite app_nil_r.
  - change (listResourcesPages (page :: pages))
      with (ListResources (Returned page) :: listResourcesPages pages).
    rewrite run_cons, IH. cbn [fmap list_fmap concat]. destruct (step_listResources page s) as [-> _].
    by rewrite <- app_assoc.
Qed.

Lemma listResourceTemplates_accumulates (pages : list ListResourceTemplatesResult)
    (s : AppState) :
  resourceTemplates (run (listResourceTemplatesPages pages) s)
  = resourceTemplates s
    ++ concat ((λ page, default [] (lrt_resourceTemplates page)) <$> pages).
Proof.
  revert s. induction pages as [|page pages IH]; intros s.
  - cbn. by rewrite app_nil_r.
  - change (listResourceTemplatesPages (page :: pages))
      with (ListResourceTemplates (Returned page) :: listResourceTemplatesPages pages).
    rewrite run_cons, IH. cbn [fmap list_fmap concat]. destruct (step_listResourceTemplates page s) as [-> _].
    by rewrite <- app_assoc.
Qed.

(** [listTools] and [listPrompts] store the page they received: after n
    pages only the last one is kept. *)
Lemma listTools_keeps_last_page (pages : list ListToolsResult) (s : AppState) :
  tools (run (listToolsPages pages) s)
  = from_option lt_tools (tools s) (last pages).
Proof.
  revert s. induction pages as [|page pages IH]; intros s; [done|].
  change (listToolsPages (page :: pages))
      with (ListTools (Returned page) :: listToolsPages pages).
  rewrite run_cons, IH. destruct (step_listTools page s) as [-> _].
  destruct pages as [|page' rest]; [done|].
  rewrite !last_cons. by destruct (last rest).
Qed.

Lemma listPrompts_keeps_last_page (pages : list ListPromptsResult) (s : AppState) :
  prompts (run (listPromptsPages pages) s)
  = from_option lp_prompts (prompts s) (last pages).
Proof.
  revert s. induction pages as [|page pages IH]; intros s; [done|].
  change (listPromptsPages (page :: pages))
      with (ListPrompts (Returned page) :: listPromptsPages pages).
  rewrite run_cons, IH. destruct (step_listPrompts page s) as [-> _].
  destruct pages as [|page' rest]; [done|].
  rewrite !last_cons. by destruct (last rest).
Qed.

(** After a clear, one list call shows exactly the page it received and is
    sent without a cursor, in all four categories. *)
Lemma clear_then_list_first_page (s : AppState) :
  (∀ page, resources (run [ClearResources; ListResources (Returned page)] s)
           = default [] (lr_resources page))
  ∧ (∀ page, resourceTemplates
               (run [ClearResourceTemplates; ListResourceTemplates (Returned page)] s)
             = default [] (lrt_resourceTemplates page))
  ∧ (∀ page, prompts (run [ClearPrompts; ListPrompts (Returned page)] s) = lp_prompts page)
  ∧ (∀ page, tools (run [ClearTools; ListTools (Returned page)] s) = lt_tools page).
Proof. by destruct s. Qed.

(** C1: the accumulation claim fails for the tools listing.  The server
    answers the first [tools/list] with [t1; t2] and cursor [c1], the second
    (sent with that cursor) with [t3]; the component then shows [t3] alone,
    where the concatenation of the two pages is [t1; t2; t3].  The resources
    listing, on the same answers, keeps all three. *)
Theorem listTools_second_page_replaces_first :
  let s := run (listToolsPages
                  [ {| lt_tools := ["t1"; "t2"]; lt_nextCursor := Some "c1" |};
                    {| lt_tools := ["t3"]; lt_nextCursor := None |} ]) initial in
  let s' := run (listResourcesPages
                  [ {| lr_resources := Some ["t1"; "t2"]; lr_nextCursor := Some "c1" |};
                    {| lr_resources := Some ["t3"]; lr_nextCursor := None |} ]) initial in
  tools s = ["t3"]
  ∧ tools s ≠ ["t1"; "t2"; "t3"]
  ∧ effects s = [ Sent {| method := "tools/list"; params := ParamsEmpty |};
                  Sent {| method := "tools/list"; params := ParamsCursor "c1" |} ]
  ∧ resources s' = ["t1"; "t2"; "t3"].
Proof. cbn zeta. split_and!; [reflexivity | discriminate | reflexivity | reflexivity]. Qed.

(** ** Observables of one handler call *)

Lemma rerun_write (extra : nat) (f : AppState → AppState) (s : AppState) :
  rerun extra (write f) s = (Returned tt, Nat.iter (S extra) f s).
Proof.
  revert s. induction extra as [|extra IH]; intros s; [done|].
  cbn [rerun]. unfold mbind, M_bind. cbn [write]. rewrite IH.
  cbn [Nat.iter]. by rewrite <- !Nat.iter_succ_r.
Qed.

Lemma rerun_mret (extra : nat) (s : AppState) :
  rerun extra (mret tt) s = (Returned tt, s).
Proof.
  induction extra as [|extra IH]; [done|].
  cbn [rerun]. unfold mbind, M_bind. cbn. exact IH.
Qed.

Lemma bind_returned {A B} (m : M A) (k : A → M B) (s s' : AppState) (a : A) :
  m s = (Returned a, s') → (m ≫= k) s = k a s'.
Proof. unfold mbind, M_bind. by intros ->. Qed.

Lemma rerun_fresh (extra : nat) (entry : nat → PendingSampleRequest) (s : AppState) :
  rerun extra (fresh ← postIncrement nextRequestId setNextRequestId; mret (entry fresh)) s
  = (Returned (entry (nextRequestId s + extra)),
     setNextRequestId (nextRequestId s + S extra) s).
Proof.
  revert s. induction extra as [|extra IH]; intros s.
  - destruct s. cbn. by rewrite Nat.add_0_r, Nat.add_1_r.
  - cbn [rerun].
    rewrite (bind_returned _ _ s (setNextRequestId (S (nextRequestId s)) s)
               (entry (nextRequestId s))) by by destruct s.
    rewrite IH. destruct s. cbn. do 2 f_equal; [f_equal; lia|lia].
Qed.

Lemma onPendingRequest_runs (extra : nat) (req : CreateMessageRequest)
    (resolve reject : Handle) (s : AppState) :
  onPendingRequest extra req resolve reject s
  = let entry := {| id := nextRequestId s + extra; request := req;
                    resolve := resolve; reject := reject |} in
    (Returned tt,
     setPendingSampleRequests (λ prev, prev ++ [entry])
       (record (Queued entry) (setNextRequestId (nextRequestId s + S extra) s))).
Proof.
  unfold onPendingRequest.
  rewrite (bind_returned _ _ s _ _
             (rerun_fresh extra (λ fresh, {| id := fresh; request := req;
                                              resolve := resolve; reject := reject |}) s)).
  done.
Qed.

Lemma handleApproveSampling_runs (extra i : nat) (result : CreateMessageResult)
    (s : AppState) :
  handleApproveSampling extra i result s
  = (Returned tt,
     setPendingSampleRequests (λ _, filter (λ r, id r ≠ i) (pendingSampleRequests s))
       (from_option (λ r, Nat.iter (S extra) (record (Resolved r result)) s) s
          (lookupPending i s))).
Proof.
  unfold handleApproveSampling, lookupPending, mbind, M_bind, read.
  destruct (find _ (pendingSampleRequests s)) as [r|]; unfold callResolve.
  - by rewrite rerun_write.
  - by rewrite rerun_mret.
Qed.

Lemma handleRejectSampling_runs (extra i : nat) (s : AppState) :
  handleRejectSampling extra i s
  = (Returned tt,
     setPendingSampleRequests (λ _, filter (λ r, id r ≠ i) (pendingSampleRequests s))
       (from_option
          (λ r, Nat.iter (S extra)
                  (record (Rejected r (newError "Sampling request rejected"))) s)
          s (lookupPending i s))).
Proof.
  unfold handleRejectSampling, lookupPending, mbind, M_bind, read.
  destruct (find _ (pendingSampleRequests s)) as [r|]; unfold callReject.
  - by rewrite rerun_write.
  - by rewrite rerun_mret.
Qed.

Lemma handleApproveSampling_unfold (i : nat) (result : CreateMessageResult) (s : AppState) :
  handleApproveSampling 0 i result s
  = (Returned tt,
     setPendingSampleRequests (λ _, filter (λ r, id r ≠ i) (pendingSampleRequests s))
       (from_option (λ r, record (Resolved r result) s) s (lookupPending i s))).
Proof.
  rewrite handleApproveSampling_runs.
  by destruct (lookupPending i s).
Qed.

Lemma handleRejectSampling_unfold (i : nat) (s : AppState) :
  handleRejectSampling 0 i s
  = (Returned tt,
     setPendingSampleRequests (λ _, filter (λ r, id r ≠ i) (pendingSampleRequests s))
       (from_option (λ r, record (Rejected r (newError "Sampling request rejected")) s) s
          (lookupPending i s))).
Proof.
  rewrite handleRejectSampling_runs.
  by destruct (lookupPending i s).
Qed.

Lemma step_effects (s : AppState) (a : Action) :
  effects (step s a)
  = effects s ++
    match a with
    | OnPendingRequest req resolve reject =>
        [Queued {| id := nextRequestId s; request := req; resolve := resolve; reject := reject |}]
    | HandleApproveSampling i result =>
        from_option (λ r, [Resolved r result]) [] (lookupPending i s)
    | HandleRejectSampling i =>
        from_option (λ r, [Rejected r (newError "Sampling request rejected")]) []
          (lookupPending i s)
    | ListResources _ =>
        [Sent {| method := "resources/list"; params := cursorParams (nextResourceCursor s) |}]
    | ListResourceTemplates _ =>
        [Sent {| method := "resources/templates/list";
                 params := cursorParams (nextResourceTemplateCursor s) |}]
    | ListPrompts _ =>
        [Sent {| method := "prompts/list"; params := cursorParams (nextPromptCursor s) |}]
    | ListTools _ =>
        [Sent {| method := "tools/list"; params := cursorParams (nextToolCursor s) |}]
    | CallTool name arguments _ => [Sent (toolsCall name arguments s)]
    | _ => []
    end.
Proof.
  destruct a; try destruct reply; unfold step, perform;
    rewrite ?handleApproveSampling_unfold, ?handleRejectSampling_unfold;
    try destruct (lookupPending i s); destruct s;
    try reflexivity; symmetry; apply app_nil_r.
Qed.

Lemma step_progressTokenRef (s : AppState) (a : Action) :
  progressTokenRef (step s a)
  = match a with
    | CallTool _ _ _ => S (progressTokenRef s)
    | _ => progressTokenRef s
    end.
Proof.
  destruct a; try destruct reply; unfold step, perform;
    rewrite ?handleApproveSampling_unfold, ?handleRejectSampling_unfold;
    try destruct (lookupPending i s); by destruct s.
Qed.

Lemma step_nextRequestId (s : AppState) (a : Action) :
  nextRequestId (step s a)
  = match a with
    | OnPendingRequest _ _ _ => S (nextRequestId s)
    | _ => nextRequestId s
    end.
Proof.
  destruct a; try destruct reply; unfold step, perform;
    rewrite ?handleApproveSampling_unfold, ?handleRejectSampling_unfold;
    try destruct (lookupPending i s); by destruct s.
Qed.

Lemma step_pendingSampleRequests (s : AppState) (a : Action) :
  pendingSampleRequests (step s a)
  = match a with
    | OnPendingRequest req resolve reject =>
        pendingSampleRequests s
        ++ [{| id := nextRequestId s; request := req; resolve := resolve; reject := reject |}]
    | HandleApproveSampling i _ | HandleRejectSampling i =>
        filter (λ r, id r ≠ i) (pendingSampleRequests s)
    | _ => pendingSampleRequests s
    end.
Proof.
  destruct a; try destruct reply; unfold step, perform;
    rewrite ?handleApproveSampling_unfold, ?handleRejectSampling_unfold;
    try destruct (lookupPending i s); by destruct s.
Qed.

(** ** Counters *)

Lemma seq_StronglySorted (j n : nat) : StronglySorted lt (seq j n).
Proof.
  revert j. induction n as [|n IH]; intros j; cbn; constructor; [apply IH|].
  apply Forall_seq. lia.
Qed.

Lemma progressTokens_app (l k : list Effect) :
  progressTokens (l ++ k) = progressTokens l ++ progressTokens k.
Proof. apply omap_app. Qed.

Lemma assignedIds_app (l k : list Effect) :
  assignedIds (l ++ k) = assignedIds l ++ assignedIds k.
Proof. apply omap_app. Qed.

Lemma invocations_app (i : nat) (l k : list Effect) :
  invocations i (l ++ k) = invocations i l + invocations i k.
Proof. unfold invocations. by rewrite List.filter_app, length_app. Qed.

Lemma progressTokens_cursorParams (m : string) (cursor : option string) :
  progressTokens [Sent {| method := m; params := cursorParams cursor |}] = [].
Proof. destruct cursor as [c|]; [|done]. unfold cursorParams. by case_decide. Qed.

Lemma progressTokens_step (s : AppState) (a : Action) :
  progressTokens (effects (step s a))
  = progressTokens (effects s)
    ++ match a with CallTool _ _ _ => [progressTokenRef s] | _ => [] end.
Proof.
  rewrite step_effects, progressTokens_app. f_equal.
  destruct a; try done; try apply progressTokens_cursorParams.
  all: by destruct (lookupPending i s).
Qed.

Lemma assignedIds_step (s : AppState) (a : Action) :
  assignedIds (effects (step s a))
  = assignedIds (effects s)
    ++ match a with OnPendingRequest _ _ _ => [nextRequestId s] | _ => [] end.
Proof.
  rewrite step_effects, assignedIds_app. f_equal.
  destruct a; try done. all: by destruct (lookupPending i s).
Qed.

Lemma progressTokens_run (acts : list Action) (s : AppState) :
  progressTokens (effects s) = seq 0 (progressTokenRef s) →
  progressTokens (effects (run acts s)) = seq 0 (progressTokenRef (run acts s)).
Proof.
  revert s. induction acts as [|a acts IH]; intros s Hs; [done|].
  rewrite run_cons. apply IH.
  rewrite progressTokens_step, step_progressTokenRef, Hs.
  destruct a; rewrite ?app_nil_r; try done.
  by rewrite seq_S.
Qed.

Lemma assignedIds_run (acts : list Action) (s : AppState) :
  assignedIds (effects s) = seq 0 (nextRequestId s) →
  assignedIds (effects (run acts s)) = seq 0 (nextRequestId (run acts s)).
Proof.
  revert s. induction acts as [|a acts IH]; intros s Hs; [done|].
  rewrite run_cons. apply IH.
  rewrite assignedIds_step, step_nextRequestId, Hs.
  destruct a; rewrite ?app_nil_r; try done.
  by rewrite seq_S.
Qed.

(** C6: every [callTool] attaches the current value of the progress-token
    counter to the request it sends and advances the counter before the
    request leaves, whatever the outcome of the call.  Over any sequence of
    handler calls from the initial state the attached tokens are
    0, 1, 2, ... in send order: strictly increasing, never repeated, and
    each new token is above all earlier ones. *)
Theorem progress_tokens_fresh_and_increasing (acts : list Action) :
  let s := run acts initial in
  progressTokens (effects s) = seq 0 (progressTokenRef s)
  ∧ StronglySorted lt (progressTokens (effects s))
  ∧ NoDup (progressTokens (effects s))
  ∧ ∀ name arguments reply,
      let s' := step s (CallTool name arguments reply) in
      effects s' = effects s ++ [Sent (toolsCall name arguments s)]
      ∧ progressTokens (effects s') = progressTokens (effects s) ++ [progressTokenRef s]
      ∧ progressTokenRef s' = S (progressTokenRef s)
      ∧ Forall (λ earlier, earlier < progressTokenRef s) (progressTokens (effects s)).
Proof.
  cbn zeta. pose proof (progressTokens_run acts initial eq_refl) as Hrun.
  split_and!.
  - done.
  - rewrite Hrun. apply seq_StronglySorted.
  - rewrite Hrun. apply NoDup_seq.
  - intros name arguments reply. split_and!.
    + apply step_effects.
    + apply progressTokens_step.
    + apply step_progressTokenRef.
    + rewrite Hrun. apply Forall_seq. lia.
Qed.

(** ** The sampling queue *)

Lemma lookupPending_Some (i : nat) (s : AppState) (r : PendingSampleRequest) :
  lookupPending i s = Some r → r ∈ pendingSampleRequests s ∧ id r = i.
Proof.
  intros Hfind. apply List.find_some in Hfind as [Hin Hid].
  split; [by apply list_elem_of_In | by apply bool_decide_eq_true in Hid].
Qed.

Lemma lookupPending_None (i : nat) (s : AppState) :
  lookupPending i s = None ↔ i ∉ queuedIds s.
Proof.
  unfold queuedIds. split.
  - intros Hfind [r [-> Hr]]%list_elem_of_fmap.
    apply list_elem_of_In in Hr.
    pose proof (List.find_none _ _ Hfind r Hr) as Hid.
    by apply bool_decide_eq_false in Hid.
  - intros Hnot. destruct (lookupPending i s) as [r|] eqn:Hfind; [|done].
    apply lookupPending_Some in Hfind as [Hr <-].
    destruct Hnot. by apply list_elem_of_fmap_2.
Qed.

Lemma lookupPending_unique (s : AppState) (r : PendingSampleRequest) :
  NoDup (queuedIds s) → r ∈ pendingSampleRequests s → lookupPending (id r) s = Some r.
Proof.
  unfold queuedIds, lookupPending.
  induction (pendingSampleRequests s) as [|r' queue IH]; intros Hnodup Hr.
  - by apply elem_of_nil in Hr.
  - cbn. apply NoDup_cons in Hnodup as [Hfresh Hnodup].
    apply elem_of_cons in Hr as [->|Hr].
    + by rewrite bool_decide_eq_true_2.
    + rewrite bool_decide_eq_false_2; [by apply IH|].
      intros Heq. apply Hfresh. rewrite Heq. by apply list_elem_of_fmap_2.
Qed.

Lemma fmap_id_filter (j : nat) (queue : list PendingSampleRequest) :
  id <$> filter (λ r, id r ≠ j) queue = filter (λ k, k ≠ j) (id <$> queue).
Proof.
  induction queue as [|r queue IH]; [done|].
  cbn [fmap list_fmap]. rewrite !filter_cons.
  repeat case_decide; try done. cbn. by rewrite IH.
Qed.

Lemma invocations_settle (i j : nat) (s : AppState) (ev : PendingSampleRequest → Effect) :
  (∀ r, settles i (ev r) = bool_decide (id r = i)) →
  invocations i (from_option (λ r, [ev r]) [] (lookupPending j s))
  = if decide (i = j ∧ j ∈ queuedIds s) then 1 else 0.
Proof.
  intros Hev. destruct (lookupPending j s) as [r|] eqn:Hfind.
  - apply lookupPending_Some in Hfind as [Hr <-].
    assert (id r ∈ queuedIds s) by by apply list_elem_of_fmap_2.
    unfold invocations. cbn. rewrite Hev.
    destruct (decide (i = id r)) as [->|Hne].
    + by rewrite bool_decide_eq_true_2, decide_True.
    + rewrite bool_decide_eq_false_2 by congruence.
      by rewrite decide_False by (by intros [? _]).
  - apply lookupPending_None in Hfind.
    by rewrite decide_False by (by intros [_ ?]).
Qed.

Lemma invocations_step (i : nat) (s : AppState) (a : Action) :
  invocations i (effects (step s a))
  = invocations i (effects s)
    + match a with
      | HandleApproveSampling j _ | HandleRejectSampling j =>
          if decide (i = j ∧ j ∈ queuedIds s) then 1 else 0
      | _ => 0
      end.
Proof.
  rewrite step_effects, invocations_app. f_equal.
  destruct a as [| j result | j | | | | | | | | | |]; try done.
  - by apply (invocations_settle i j s (λ r, Resolved r result)).
  - by apply (invocations_settle i j s
                (λ r, Rejected r (newError "Sampling request rejected"))).
Qed.

Lemma queuedIds_step (s : AppState) (a : Action) :
  queuedIds (step s a)
  = match a with
    | OnPendingRequest _ _ _ => queuedIds s ++ [nextRequestId s]
    | HandleApproveSampling j _ | HandleRejectSampling j => filter (λ k, k ≠ j) (queuedIds s)
    | _ => queuedIds s
    end.
Proof.
  unfold queuedIds. rewrite step_pendingSampleRequests.
  destruct a; try done; [by rewrite fmap_app | apply fmap_id_filter..].
Qed.

Lemma queueInvariant_initial : queueInvariant initial.
Proof.
  split_and!; [constructor | by intros i ?%elem_of_nil |].
  intros i. cbn. case_decide; [lia|done].
Qed.

Lemma settled_after_removal (i j n : nat) (ids : list nat) :
  (i ∈ ids → i < n) →
  (if decide (i < n ∧ i ∉ ids) then 1 else 0)
  + (if decide (i = j ∧ j ∈ ids) then 1 else 0)
  = if decide (i < n ∧ i ∉ filter (λ k, k ≠ j) ids) then 1 else 0.
Proof.
  intros Hi. pose proof (list_elem_of_filter (λ k, k ≠ j) ids i) as Hfilter.
  destruct (decide (i = j)) as [->|Hne];
    repeat case_decide; try done; exfalso; intuition lia.
Qed.

Lemma queueInvariant_step (s : AppState) (a : Action) :
  queueInvariant s → queueInvariant (step s a).
Proof.
  intros (Hnodup & Hbound & Hcount).
  unfold queueInvariant.
  rewrite queuedIds_step, step_nextRequestId.
  split_and!.
  - destruct a; try done; [|by apply NoDup_filter..].
    apply NoDup_app. split_and!; [done| |apply NoDup_singleton].
    intros k Hk ->%list_elem_of_singleton. apply Hbound in Hk. lia.
  - intros i. specialize (Hbound i).
    destruct a; try done.
    + rewrite elem_of_app, list_elem_of_singleton. intuition lia.
    + rewrite list_elem_of_filter. intuition.
    + rewrite list_elem_of_filter. intuition.
  - intros i. rewrite invocations_step, Hcount.
    pose proof (Hbound i) as Hi.
    destruct a as [| j ? | j | | | | | | | | | |]; rewrite ?Nat.add_0_r; try done.
    + apply decide_ext. rewrite elem_of_app, list_elem_of_singleton. intuition lia.
    + by apply settled_after_removal.
    + by apply settled_after_removal.
Qed.

Lemma queueInvariant_run (acts : list Action) (s : AppState) :
  queueInvariant s → queueInvariant (run acts s).
Proof.
  revert s. induction acts as [|a acts IH]; intros s Hs; [done|].
  rewrite run_cons. by apply IH, queueInvariant_step.
Qed.

Lemma filter_other_ids (i : nat) (queue : list PendingSampleRequest) :
  i ∉ id <$> queue → filter (λ r, id r ≠ i) queue = queue.
Proof.
  induction queue as [|r queue IH]; [done|].
  cbn [fmap list_fmap]. rewrite not_elem_of_cons. intros [Hne Hrest].
  rewrite filter_cons_True by done. by rewrite IH.
Qed.

Lemma setPendingSampleRequests_same (s : AppState) :
  setPendingSampleRequests (λ _, pendingSampleRequests s) s = s.
Proof. by destruct s. Qed.

Lemma decision_unknown_id (i : nat) (a : Action) (s : AppState) :
  decides i a → i ∉ queuedIds s → perform a s = (Returned tt, s).
Proof.
  intros Ha Hi. pose proof Hi as Hfind%lookupPending_None.
  destruct a; try done; cbn in Ha; subst; cbn [perform].
  - rewrite handleApproveSampling_unfold, Hfind, filter_other_ids by done.
    cbn. by rewrite setPendingSampleRequests_same.
  - rewrite handleRejectSampling_unfold, Hfind, filter_other_ids by done.
    cbn. by rewrite setPendingSampleRequests_same.
Qed.

Lemma decision_returns (i : nat) (a : Action) (s : AppState) :
  decides i a → (perform a s).1 = Returned tt.
Proof.
  destruct a; try done; intros _; cbn [perform].
  - by rewrite handleApproveSampling_unfold.
  - by rewrite handleRejectSampling_unfold.
Qed.

(** In a production build, where every updater runs once: over any
    sequence of handler calls from the initial state, the capabilities of
    the queue entry with id [i] have been invoked exactly once if the entry
    was created and has left the queue, and never otherwise.  An approve
    (reject) whose id matches a queued entry calls that entry's resolve
    (reject) and removes it; a call whose id is not in the queue, which
    includes every later call with the same id, returns normally and leaves
    the whole state, log included, as it was. *)
Lemma sampling_settled_exactly_once (acts : list Action) (i : nat) :
  let s := run acts initial in
  invocations i (effects s)
  = (if decide (i < nextRequestId s ∧ i ∉ queuedIds s) then 1 else 0)
  ∧ (∀ r, r ∈ pendingSampleRequests s → id r = i →
       (∀ result, effects (step s (HandleApproveSampling i result))
                  = effects s ++ [Resolved r result])
       ∧ effects (step s (HandleRejectSampling i))
         = effects s ++ [Rejected r (newError "Sampling request rejected")])
  ∧ (∀ a, decides i a →
       (perform a s).1 = Returned tt
       ∧ (i ∉ queuedIds (step s a))
       ∧ (i ∈ queuedIds s → invocations i (effects (step s a)) = 1)
       ∧ (i ∉ queuedIds s → step s a = s)).
Proof.
  cbn zeta. set (s := run acts initial).
  assert (Hinv : queueInvariant s) by apply queueInvariant_run, queueInvariant_initial.
  destruct Hinv as (Hnodup & Hbound & Hcount).
  split_and!.
  - apply Hcount.
  - intros r Hr <-. pose proof (lookupPending_unique s r Hnodup Hr) as Hfind.
    split; [intros result|]; by rewrite step_effects, Hfind.
  - intros a Ha. split_and!.
    + by apply (decision_returns i).
    + rewrite queuedIds_step. destruct a; try done; cbn in Ha; subst;
        rewrite list_elem_of_filter; by intros [? _].
    + intros Hi. rewrite invocations_step, Hcount.
      rewrite decide_False by (by intros [_ ?]).
      destruct a; try done; cbn in Ha; subst; by rewrite decide_True.
    + intros Hi. unfold step. by rewrite (decision_unknown_id i).
Qed.

Lemma sampling_settled_exactly_once_witness :
  let s := run [OnPendingRequest "summarise" 10 11; HandleApproveSampling 0 "ok"] initial in
  invocations 0 (effects s) = 1
  ∧ step s (HandleRejectSampling 0) = s
  ∧ step s (HandleApproveSampling 7 "late") = s.
Proof.
  cbn zeta.
  destruct (sampling_settled_exactly_once
              [OnPendingRequest "summarise" 10 11; HandleApproveSampling 0 "ok"] 0)
    as (Hcount & _ & Hdecide).
  destruct (sampling_settled_exactly_once
              [OnPendingRequest "summarise" 10 11; HandleApproveSampling 0 "ok"] 7)
    as (_ & _ & Hunknown).
  split_and!.
  - exact Hcount.
  - destruct (Hdecide (HandleRejectSampling 0) eq_refl) as (_ & _ & _ & Hnoop).
    apply Hnoop. vm_compute. by intros ?%elem_of_nil.
  - destruct (Hunknown (HandleApproveSampling 7 "late") eq_refl) as (_ & _ & _ & Hnoop).
    apply Hnoop. vm_compute. by intros ?%elem_of_nil.
Defined.

(** C8: rejecting a queued request calls that entry's reject capability
    with the fixed error [new Error("Sampling request rejected")], returns
    normally, and removes that entry and no other from the queue. *)
Theorem reject_invokes_reject_and_removes (acts : list Action) (r : PendingSampleRequest) :
  let s := run acts initial in
  r ∈ pendingSampleRequests s →
  let s' := step s (HandleRejectSampling (id r)) in
  effects s' = effects s ++ [Rejected r (newError "Sampling request rejected")]
  ∧ (perform (HandleRejectSampling (id r)) s).1 = Returned tt
  ∧ (∀ r', r' ∈ pendingSampleRequests s' ↔ r' ∈ pendingSampleRequests s ∧ r' ≠ r)
  ∧ errorString (newError "Sampling request rejected") = "Sampling request rejected".
Proof.
  cbn zeta. set (s := run acts initial). intros Hr.
  assert (Hinv : queueInvariant s) by apply queueInvariant_run, queueInvariant_initial.
  destruct Hinv as (Hnodup & _ & _).
  pose proof (lookupPending_unique s r Hnodup Hr) as Hfind.
  split_and!.
  - by rewrite step_effects, Hfind.
  - by rewrite (decision_returns (id r)).
  - intros r'. rewrite step_pendingSampleRequests, list_elem_of_filter.
    split; intros [H1 H2]; split; try done.
    + by intros ->.
    + intros Hid. apply H2.
      pose proof (lookupPending_unique s r' Hnodup H1) as Hfind'.
      rewrite Hid, Hfind in Hfind'. by injection Hfind'.
  - done.
Qed.

Lemma reject_invokes_reject_and_removes_witness :
  let entry := {| id := 0; request := "summarise"; resolve := 10; reject := 11 |} in
  let s := run [OnPendingRequest "summarise" 10 11] initial in
  effects (step s (HandleRejectSampling 0))
  = [Queued entry; Rejected entry (newError "Sampling request rejected")].
Proof.
  cbn zeta.
  assert (Hin : {| id := 0; request := "summarise"; resolve := 10; reject := 11 |}
                ∈ pendingSampleRequests (run [OnPendingRequest "summarise" 10 11] initial)).
  { vm_compute. apply list_elem_of_here. }
  destruct (reject_invokes_reject_and_removes [OnPendingRequest "summarise" 10 11] _ Hin)
    as (Heff & _).
  exact Heff.
Defined.

(** C9: the ids given to sampling requests are 0, 1, 2, ... in arrival
    order, over any sequence of handler calls from the initial state:
    strictly increasing, pairwise distinct, and each new id is above all
    ids given before.  The ids waiting in the queue are distinct as well. *)
Theorem pending_request_ids_strictly_increasing (acts : list Action) :
  let s := run acts initial in
  assignedIds (effects s) = seq 0 (nextRequestId s)
  ∧ StronglySorted lt (assignedIds (effects s))
  ∧ NoDup (assignedIds (effects s))
  ∧ NoDup (queuedIds s)
  ∧ ∀ req resolve reject,
      let s' := step s (OnPendingRequest req resolve reject) in
      pendingSampleRequests s'
      = pendingSampleRequests s
        ++ [{| id := nextRequestId s; request := req; resolve := resolve; reject := reject |}]
      ∧ assignedIds (effects s') = assignedIds (effects s) ++ [nextRequestId s]
      ∧ nextRequestId s' = S (nextRequestId s)
      ∧ Forall (λ earlier, earlier < nextRequestId s) (assignedIds (effects s)).
Proof.
  cbn zeta. pose proof (assignedIds_run acts initial eq_refl) as Hrun.
  split_and!.
  - done.
  - rewrite Hrun. apply seq_StronglySorted.
  - rewrite Hrun. apply NoDup_seq.
  - apply (queueInvariant_run acts initial queueInvariant_initial).
  - intros req resolve reject. split_and!.
    + apply step_pendingSampleRequests.
    + apply assignedIds_step.
    + apply step_nextRequestId.
    + rewrite Hrun. apply Forall_seq. lia.
Qed.

End AppFacts.

(** * Properties of the [MCPServerButton] component *)

Module MCPServerButtonFacts.
Import MCPServerButton.

Lemma filter_all {A} (P : A → Prop) `{!∀ x, Decision (P x)} (l : list A) :
  (∀ x, x ∈ l → P x) → filter P l = l.
Proof.
  induction l as [|x l IH]; intros Hall; [done|].
  rewrite filter_cons_True by apply Hall, list_elem_of_here.
  rewrite IH; [done|]. intros y Hy. by apply Hall, list_elem_of_further.
Qed.

Lemma isRunning_runningIds (serverStates : gmap string ServerState) (i : string) :
  isRunning serverStates i = true ↔ i ∈ runningIds serverStates.
Proof.
  unfold isRunning, runningIds. rewrite elem_of_dom. split.
  - destruct (serverStates !! i) as [state|] eqn:Hlookup; [|done].
    intros Hrun%bool_decide_eq_true. exists state.
    by apply map_lookup_filter_Some.
  - intros [state [Hlookup Hrun]%map_lookup_filter_Some]. rewrite Hlookup.
    by apply bool_decide_eq_true.
Qed.

Lemma entry_runningIds (serverStates : gmap string ServerState) (i : string)
    (state : ServerState) :
  serverStates !! i = Some state → (status state = Running ↔ i ∈ runningIds serverStates).
Proof.
  intros Hlookup. rewrite <- isRunning_runningIds. unfold isRunning. rewrite Hlookup.
  by rewrite bool_decide_eq_true.
Qed.

(** ** Reconciliation of the active list *)

Section reconcile.
Context (serverStates : gmap string ServerState) (activeServerIds : list string).

Lemma elem_of_updatedActiveIds (i : string) :
  i ∈ updatedActiveIds serverStates activeServerIds
  ↔ i ∈ runningIds serverStates ∧ i ∈ activeServerIds.
Proof.
  unfold updatedActiveIds. rewrite list_elem_of_filter, <- isRunning_runningIds.
  by rewrite Is_true_true.
Qed.

Lemma elem_of_newActiveIds (i : string) :
  i ∈ newActiveIds serverStates activeServerIds
  ↔ i ∈ runningIds serverStates ∧ i ∉ activeServerIds.
Proof.
  unfold newActiveIds. rewrite list_elem_of_fmap. split.
  - intros [[i' state] [-> [[Hrun Hnew] Hentry%elem_of_map_to_list]%list_elem_of_filter]].
    cbn in *. apply (entry_runningIds _ _ _ Hentry) in Hrun.
    split; [done|]. intros Hactive. apply Hnew. by apply elem_of_updatedActiveIds.
  - intros [Hrun Hnew]. pose proof Hrun as Hdom.
    unfold runningIds in Hdom. apply elem_of_dom in Hdom as [state Hstate].
    apply map_lookup_filter_Some in Hstate as [Hlookup Hstatus].
    exists (i, state). split; [done|]. apply list_elem_of_filter. split.
    + split; [done|]. cbn. rewrite elem_of_updatedActiveIds. by intros [_ ?].
    + by apply elem_of_map_to_list.
Qed.

(** When the filter drops nothing, every active id is running. *)
Lemma updatedActiveIds_all :
  length (updatedActiveIds serverStates activeServerIds) = length activeServerIds →
  ∀ i, i ∈ activeServerIds → i ∈ runningIds serverStates.
Proof.
  intros Hlen i Hi. apply isRunning_runningIds, Is_true_true.
  destruct (decide (Is_true (isRunning serverStates i))) as [|Hstopped]; [done|].
  apply (length_filter_lt (λ i, isRunning serverStates i) _ _ Hi) in Hstopped.
  fold (updatedActiveIds serverStates activeServerIds) in Hstopped. lia.
Qed.

Lemma reconciled_runningIds :
  list_to_set (reconciled serverStates activeServerIds) = runningIds serverStates.
Proof.
  apply set_eq. intros i. rewrite elem_of_list_to_set.
  unfold reconciled, reconcile. cbn zeta. case_decide as Hchange; cbn.
  - rewrite elem_of_app, elem_of_updatedActiveIds, elem_of_newActiveIds.
    destruct (decide (i ∈ activeServerIds)); tauto.
  - assert (length (updatedActiveIds serverStates activeServerIds)
            = length activeServerIds) as Hlen by lia.
    assert (newActiveIds serverStates activeServerIds = []) as Hnew
      by (apply nil_length_inv; lia).
    split; [by apply updatedActiveIds_all|].
    intros Hrun. destruct (decide (i ∈ activeServerIds)) as [|Hnot]; [done|].
    assert (i ∈ newActiveIds serverStates activeServerIds) as Hin
      by by apply elem_of_newActiveIds.
    rewrite Hnew in Hin. by apply elem_of_nil in Hin.
Qed.

Lemma reconcile_settled :
  list_to_set activeServerIds = runningIds serverStates →
  reconcile serverStates activeServerIds = None.
Proof.
  intros Heq. unfold reconcile. cbn zeta. rewrite decide_False; [done|].
  assert (Hall : ∀ i, i ∈ activeServerIds ↔ i ∈ runningIds serverStates).
  { intros i. by rewrite <- Heq, elem_of_list_to_set. }
  intros [Hlen|Hnew].
  - apply Hlen. unfold updatedActiveIds. f_equal. apply filter_all.
    intros i Hi. by apply Is_true_true, isRunning_runningIds, Hall.
  - destruct (newActiveIds serverStates activeServerIds) as [|i ids] eqn:Hids;
      [cbn in Hnew; lia|].
    assert (i ∈ newActiveIds serverStates activeServerIds) as Hin
      by (rewrite Hids; apply list_elem_of_here).
    apply elem_of_newActiveIds in Hin as [Hrun Hnot]. by apply Hnot, Hall.
Qed.

End reconcile.

(** C4: once the reconciliation effect has run, the active ids are, as a
    set, exactly the ids of the Running servers; when the active ids already
    are that set, the effect does not call the setter and the list stays as
    it is; and running the effect again after it has run changes nothing. *)
Theorem reconcile_active_is_running (serverStates : gmap string ServerState)
    (activeServerIds : list string) :
  list_to_set (reconciled serverStates activeServerIds) = runningIds serverStates
  ∧ (list_to_set activeServerIds = runningIds serverStates →
     reconcile serverStates activeServerIds = None
     ∧ reconciled serverStates activeServerIds = activeServerIds)
  ∧ reconcile serverStates (reconciled serverStates activeServerIds) = None.
Proof.
  split_and!.
  - apply reconciled_runningIds.
  - intros Heq. unfold reconciled. by rewrite reconcile_settled.
  - apply reconcile_settled, reconciled_runningIds.
Qed.

Lemma reconcile_active_is_running_witness :
  reconcile exampleStates ["clock"; "files"] = None
  ∧ list_to_set (reconciled exampleStates ["search"; "files"])
    = runningIds exampleStates.
Proof.
  destruct (reconcile_active_is_running exampleStates ["clock"; "files"])
    as (_ & Hsettled & _).
  destruct (reconcile_active_is_running exampleStates ["search"; "files"])
    as (Hset & _).
  split; [|exact Hset].
  apply Hsettled. by vm_compute.
Defined.

(** ** Aggregated tool count *)

Lemma foldl_contribution (entries : list (string * ServerState)) (count : nat) :
  foldl (λ count entry,
           match status entry.2, tools entry.2 with
           | Running, Some ts => count + length ts
           | _, _ => count
           end) count entries
  = count + sum_list_with (λ entry, contribution entry.2) entries.
Proof.
  revert count. induction entries as [|[i state] entries IH]; intros count; cbn.
  - lia.
  - rewrite IH. unfold contribution. cbn.
    destruct (status state), (tools state); lia.
Qed.

Lemma totalAvailableTools_sum (serverStates : gmap string ServerState)
    (activeServerIds : list string) :
  totalAvailableTools serverStates activeServerIds
  = sum_list_with (λ entry, contribution entry.2)
      (filter (λ entry, entry.1 ∈ activeServerIds) (map_to_list serverStates)).
Proof. unfold totalAvailableTools. by rewrite foldl_contribution. Qed.

Lemma sum_list_with_filter_zero {A} (f : A → nat) (P Q : A → Prop)
    `{!∀ x, Decision (P x)} `{!∀ x, Decision (Q x)} (l : list A) :
  (∀ x, P x → ¬ Q x → f x = 0) →
  sum_list_with f (filter P l) = sum_list_with f (filter (λ x, P x ∧ Q x) l).
Proof.
  intros Hzero. induction l as [|x l IH]; [done|].
  rewrite !filter_cons.
  destruct (decide (P x)) as [HP|HP], (decide (Q x)) as [HQ|HQ].
  - rewrite decide_True by done. cbn. by rewrite IH.
  - rewrite decide_False by (by intros [_ ?]). cbn. rewrite (Hzero x HP HQ). by rewrite IH.
  - by rewrite decide_False by (by intros [? _]).
  - by rewrite decide_False by (by intros [? _]).
Qed.

Lemma sum_list_with_ext_in {A} (f g : A → nat) (l : list A) :
  (∀ x, x ∈ l → f x = g x) → sum_list_with f l = sum_list_with g l.
Proof.
  induction l as [|x l IH]; intros Hext; [done|]. cbn.
  rewrite (Hext x) by apply list_elem_of_here.
  rewrite IH; [done|]. intros y Hy. by apply Hext, list_elem_of_further.
Qed.

Lemma sum_list_with_fmap {A B} (f : B → nat) (h : A → B) (l : list A) :
  sum_list_with f (h <$> l) = sum_list_with (f ∘ h) l.
Proof. induction l as [|x l IH]; [done|]. cbn. by rewrite IH. Qed.

Lemma activeRunning_entries (serverStates : gmap string ServerState)
    (activeServerIds : list string) :
  (filter (λ entry, entry.1 ∈ activeServerIds ∧ status entry.2 = Running)
          (map_to_list serverStates)).*1
  ≡ₚ elements (list_to_set activeServerIds ∩ runningIds serverStates : gset string).
Proof.
  apply NoDup_Permutation.
  - apply (sublist_NoDup _ (map_to_list serverStates).*1).
    + apply NoDup_fst_map_to_list.
    + apply fmap_sublist, sublist_filter.
  - apply NoDup_elements.
  - intros i. rewrite elem_of_elements, elem_of_intersection, elem_of_list_to_set.
    rewrite list_elem_of_fmap. split.
    + intros [[i' state] [-> [[Hactive Hrun] Hentry%elem_of_map_to_list]%list_elem_of_filter]].
      cbn in *. split; [done|]. by apply (entry_runningIds _ _ _ Hentry).
    + intros [Hactive Hrun]. unfold runningIds in Hrun.
      apply elem_of_dom in Hrun as [state [Hlookup Hstatus]%map_lookup_filter_Some].
      exists (i, state). split; [done|]. apply list_elem_of_filter.
      split; [done|]. by apply elem_of_map_to_list.
Qed.

Lemma totalAvailableTools_insert (serverStates : gmap string ServerState)
    (activeServerIds : list string) (i : string) (state : ServerState) :
  serverStates !! i = None →
  totalAvailableTools (<[i := state]> serverStates) activeServerIds
  = totalAvailableTools serverStates activeServerIds
    + if decide (i ∈ activeServerIds ∧ status state = Running)
      then toolsLength (Some state) else 0.
Proof.
  intros Hfresh. rewrite !totalAvailableTools_sum.
  rewrite (map_to_list_insert _ _ _ Hfresh), filter_cons. cbn [fst].
  destruct (decide (i ∈ activeServerIds)) as [Hactive|Hactive].
  - cbn. unfold contribution, toolsLength.
    destruct state as [? ? st ? [ts|]]; cbn; destruct st; cbn;
      try (rewrite decide_True by done); try (rewrite decide_False by (by intros [_ ?])); lia.
  - rewrite decide_False by (by intros [? _]). lia.
Qed.

Lemma totalAvailableTools_totalTools_spec (serverStates : gmap string ServerState)
    (activeServerIds : list string) :
  totalAvailableTools serverStates activeServerIds
  = totalTools_spec serverStates activeServerIds.
Proof.
  rewrite totalAvailableTools_sum. unfold totalTools_spec.
  rewrite <- activeRunning_entries, sum_list_with_fmap.
  rewrite (sum_list_with_filter_zero _ _ (λ entry, status entry.2 = Running)).
  - apply sum_list_with_ext_in.
    intros [i state] [[_ Hrun] Hentry%elem_of_map_to_list]%list_elem_of_filter.
    cbn in *. rewrite Hentry. unfold contribution, toolsLength. rewrite Hrun.
    by destruct state as [? ? ? ? [ts|]].
  - intros [i state] _ Hstopped. unfold contribution. cbn in *. by destruct (status state).
Qed.

(** C7: the tool count shown by the button is the sum of [tools.length]
    over the servers that are in the active list and Running.  A server
    that is not active or not Running adds nothing: adding a server to the
    manager raises the count by its number of tools when it is active and
    Running, and leaves the count as it was otherwise. *)
Theorem totalAvailableTools_sums_active_running (serverStates : gmap string ServerState)
    (activeServerIds : list string) :
  totalAvailableTools serverStates activeServerIds
  = totalTools_spec serverStates activeServerIds
  ∧ ∀ (i : string) (state : ServerState), serverStates !! i = None →
      totalAvailableTools (<[i := state]> serverStates) activeServerIds
      = totalAvailableTools serverStates activeServerIds
        + if decide (i ∈ activeServerIds ∧ status state = Running)
          then toolsLength (Some state) else 0.
Proof.
  split.
  - apply totalAvailableTools_totalTools_spec.
  - intros i state. apply totalAvailableTools_insert.
Qed.

Lemma totalAvailableTools_sums_active_running_witness :
  totalAvailableTools exampleStates ["search"; "files"] = 2
  ∧ totalAvailableTools
      (<["mail" := {| id := "mail"; label := None; status := Failed;
                      error := Some "exited"; tools := Some ["send"] |}]> exampleStates)
      ["search"; "files"; "mail"] = 2.
Proof.
  destruct (totalAvailableTools_sums_active_running exampleStates ["search"; "files"])
    as [Hspec _].
  destruct (totalAvailableTools_sums_active_running exampleStates
              ["search"; "files"; "mail"]) as [Hspec' Hinsert].
  split.
  - rewrite Hspec. by vm_compute.
  - rewrite Hinsert by by vm_compute. rewrite Hspec'. by vm_compute.
Defined.

End MCPServerButtonFacts.

(** * Further properties of the [App] component *)

Module AppViewsFacts.
Import App AppFacts AppViews.

(** ** Counters *)

Lemma counters_run (acts : list Action) (s : AppState) :
  progressTokenRef (run acts s)
  = progressTokenRef s + length (List.filter isCallTool acts)
  ∧ nextRequestId (run acts s)
    = nextRequestId s + length (List.filter isOnPendingRequest acts).
Proof.
  revert s. induction acts as [|a acts IH]; intros s.
  - cbn. lia.
  - rewrite run_cons. destruct (IH (step s a)) as [-> ->].
    rewrite step_progressTokenRef, step_nextRequestId.
    destruct a; cbn; lia.
Qed.

(** In a production build, where every updater runs once, the request-id
    counter is the number of sampling requests received and the
    progress-token counter the number of [callTool] calls. *)
Lemma counters_count_calls (acts : list Action) :
  progressTokenRef (run acts initial) = length (List.filter isCallTool acts)
  ∧ nextRequestId (run acts initial) = length (List.filter isOnPendingRequest acts).
Proof. destruct (counters_run acts initial) as [-> ->]. done. Qed.

(** ** Shape of the sampling queue *)

Lemma StronglySorted_filter {A} (R : relation A) (P : A → Prop)
    `{!∀ x, Decision (P x)} (l : list A) :
  StronglySorted R l → StronglySorted R (filter P l).
Proof.
  induction 1 as [|x l Hl IH Hx]; [constructor|].
  rewrite filter_cons. case_decide; [|done].
  constructor; [done|]. apply Forall_forall. intros y [_ Hy]%list_elem_of_filter.
  rewrite Forall_forall in Hx. by apply Hx.
Qed.

Lemma queue_sorted_run (acts : list Action) (s : AppState) :
  queueInvariant s → StronglySorted lt (queuedIds s) →
  StronglySorted lt (queuedIds (run acts s)).
Proof.
  revert s. induction acts as [|a acts IH]; intros s Hinv Hsorted; [done|].
  rewrite run_cons. apply IH; [by apply queueInvariant_step|].
  rewrite queuedIds_step. destruct Hinv as (_ & Hbound & _).
  destruct a; try done; [|by apply StronglySorted_filter..].
  apply StronglySorted_app_2; [|done|repeat constructor].
  intros k n Hk ->%list_elem_of_singleton. by apply Hbound.
Qed.

(** X2: the queue shows the pending requests in arrival order: over any
    sequence of handler calls the ids in the queue are strictly
    increasing from front to back. *)
Theorem queue_keeps_arrival_order (acts : list Action) :
  StronglySorted lt (queuedIds (run acts initial)).
Proof.
  apply queue_sorted_run; [apply queueInvariant_initial | constructor].
Qed.

Lemma length_filter_other_ids (i : nat) (queue : list PendingSampleRequest) :
  NoDup (id <$> queue) → i ∈ id <$> queue →
  S (length (filter (λ r, id r ≠ i) queue)) = length queue.
Proof.
  induction queue as [|r queue IH]; cbn [fmap list_fmap].
  - by intros _ ?%elem_of_nil.
  - intros [Hfresh Hnodup]%NoDup_cons Hi. rewrite filter_cons.
    destruct (decide (id r = i)) as [<-|Hne].
    + rewrite decide_False by (by intros Hne). cbn.
      by rewrite filter_other_ids.
    + rewrite decide_True by done. cbn. rewrite IH; [done..|].
      apply elem_of_cons in Hi as [Heq|Hi]; [by destruct Hne|done].
Qed.

Lemma decisions_app (l k : list Effect) :
  length (List.filter isDecision (l ++ k))
  = length (List.filter isDecision l) + length (List.filter isDecision k).
Proof. by rewrite List.filter_app, length_app. Qed.

Lemma queue_balance_run (acts : list Action) (s : AppState) :
  queueInvariant s →
  length (pendingSampleRequests s) + length (List.filter isDecision (effects s))
  = nextRequestId s →
  length (pendingSampleRequests (run acts s))
  + length (List.filter isDecision (effects (run acts s)))
  = nextRequestId (run acts s).
Proof.
  revert s. induction acts as [|a acts IH]; intros s Hinv Hs; [done|].
  rewrite run_cons. apply IH; [by apply queueInvariant_step|].
  rewrite step_pendingSampleRequests, step_effects, decisions_app, step_nextRequestId.
  destruct Hinv as (Hnodup & _ & _).
  destruct a as [| j ? | j | | | | | | | | | |]; cbn; rewrite ?length_app; cbn; try lia.
  - destruct (lookupPending j s) as [r|] eqn:Hfind; cbn.
    + apply lookupPending_Some in Hfind as [Hr <-].
      pose proof (length_filter_other_ids (id r) (pendingSampleRequests s) Hnodup
                    (list_elem_of_fmap_2 id _ _ Hr)). lia.
    + apply lookupPending_None in Hfind. rewrite filter_other_ids by done. lia.
  - destruct (lookupPending j s) as [r|] eqn:Hfind; cbn.
    + apply lookupPending_Some in Hfind as [Hr <-].
      pose proof (length_filter_other_ids (id r) (pendingSampleRequests s) Hnodup
                    (list_elem_of_fmap_2 id _ _ Hr)). lia.
    + apply lookupPending_None in Hfind. rewrite filter_other_ids by done. lia.
Qed.

(** In a production build, where every updater runs once, the requests
    waiting in the queue and the capability invocations made so far add up
    to the request-id counter. *)
Lemma queue_length_balance (acts : list Action) :
  let s := run acts initial in
  length (pendingSampleRequests s) + length (List.filter isDecision (effects s))
  = nextRequestId s.
Proof. apply queue_balance_run; [apply queueInvariant_initial | done]. Qed.

(** X4: approving or rejecting a queued request takes exactly that entry
    out of the queue; the entries before and after it stay, in the same
    order. *)
Theorem decision_removes_one_entry (acts : list Action) (r : PendingSampleRequest)
    (a : Action) :
  let s := run acts initial in
  r ∈ pendingSampleRequests s → decides (id r) a →
  ∃ before after,
    pendingSampleRequests s = before ++ r :: after
    ∧ pendingSampleRequests (step s a) = before ++ after.
Proof.
  cbn zeta. set (s := run acts initial). intros Hr Ha.
  assert (Hinv : queueInvariant s) by apply queueInvariant_run, queueInvariant_initial.
  destruct Hinv as (Hnodup & _ & _). unfold queuedIds in Hnodup.
  assert (Hstep : pendingSampleRequests (step s a)
                  = filter (λ r', id r' ≠ id r) (pendingSampleRequests s)).
  { rewrite step_pendingSampleRequests. destruct a; try done; cbn in Ha; by subst. }
  rewrite Hstep. clear Hstep.
  apply list_elem_of_split in Hr as (before & after & Hsplit).
  exists before, after. split; [done|].
  rewrite Hsplit in Hnodup |- *.
  rewrite fmap_app, fmap_cons in Hnodup.
  apply NoDup_app in Hnodup as (_ & Hbefore & [Hafter _]%NoDup_cons).
  rewrite filter_app, filter_cons_False by (by intros Hne).
  rewrite !filter_other_ids; [done|done|].
  intros Hin. apply (Hbefore _ Hin). apply list_elem_of_here.
Qed.

Lemma decision_removes_one_entry_witness :
  let first := {| id := 0; request := "a"; resolve := 1; reject := 2 |} in
  let second := {| id := 1; request := "b"; resolve := 3; reject := 4 |} in
  ∃ before after,
    pendingSampleRequests
      (run [OnPendingRequest "a" 1 2; OnPendingRequest "b" 3 4] initial)
    = before ++ first :: after
    ∧ pendingSampleRequests
        (step (run [OnPendingRequest "a" 1 2; OnPendingRequest "b" 3 4] initial)
              (HandleApproveSampling 0 "ok"))
      = before ++ after.
Proof.
  cbn zeta.
  apply (decision_removes_one_entry
           [OnPendingRequest "a" 1 2; OnPendingRequest "b" 3 4]
           {| id := 0; request := "a"; resolve := 1; reject := 2 |}
           (HandleApproveSampling 0 "ok")).
  - vm_compute. apply list_elem_of_here.
  - reflexivity.
Defined.

(** ** Category errors over a sequence of calls *)

Lemma step_errors (s : AppState) (a : Action) :
  errors (step s a)
  = match errorWrite a with
    | Some (k, v) => <[k := v]> (errors s)
    | None => errors s
    end.
Proof.
  destruct a; try destruct reply; unfold step, perform;
    rewrite ?handleApproveSampling_unfold, ?handleRejectSampling_unfold;
    try destruct (lookupPending i s); by destruct s.
Qed.

Lemma lastErrorWrite_snoc (k : string) (acts : list Action) (a : Action) :
  lastErrorWrite k (acts ++ [a])
  = match errorWrite a with
    | Some (k', v) => if decide (k' = k) then Some v else lastErrorWrite k acts
    | None => lastErrorWrite k acts
    end.
Proof.
  unfold lastErrorWrite. rewrite omap_app, filter_app.
  change (omap errorWrite [a]) with (option_list (errorWrite a)).
  destruct (errorWrite a) as [[k' v]|]; [|by rewrite app_nil_r].
  change (option_list (Some (k', v))) with [(k', v)].
  rewrite filter_cons, filter_nil. cbn [fst]. case_decide; [|by rewrite app_nil_r].
  by rewrite last_snoc.
Qed.

(** X5: the error shown for a category is what the most recent handler
    call of that category left there: [null] after a success or a
    [clearError], the error string after a failure; calls of other
    categories never change it, and a key no call has written has its
    initial value. *)
Theorem errors_show_last_outcome (acts : list Action) (k : string) :
  errors (run acts initial) !! k
  = match lastErrorWrite k acts with
    | Some v => Some v
    | None => errors initial !! k
    end.
Proof.
  induction acts as [|a acts IH] using rev_ind; [done|].
  rewrite run_snoc, step_errors, lastErrorWrite_snoc.
  destruct (errorWrite a) as [[k' v]|]; [|done].
  case_decide as Hk.
  - subst. apply lookup_insert_eq.
  - by rewrite lookup_insert_ne.
Qed.

(** ** Listings *)

Lemma step_shown (s : AppState) (a : Action) (c : Listing) :
  listingOf a ≠ Some c → shown c (step s a) = shown c s.
Proof.
  intros Hother.
  destruct a; try destruct reply; unfold step, perform;
    rewrite ?handleApproveSampling_unfold, ?handleRejectSampling_unfold;
    try destruct (lookupPending i s); destruct s, c; try done; by destruct Hother.
Qed.

Lemma step_listCall (s : AppState) (a : Action) (c : Listing) :
  listCallOf a = Some c → effects (step s a) = effects s ++ [Sent (listRequest c s)].
Proof.
  intros Hc. rewrite step_effects.
  destruct a; try done; cbn in Hc; by simplify_eq.
Qed.

Lemma step_listFailure (s : AppState) (a : Action) (e : Thrown) (c : Listing) :
  listFailure a = Some e → (perform a s).1 = Raised e ∧ shown c (step s a) = shown c s.
Proof.
  intros He.
  destruct a; try done; destruct reply; try done; cbn in He; simplify_eq;
    by destruct s, c.
Qed.

(** X6: a list call that fails hands the failure to its caller, leaves all
    four lists and cursors as they were, and shows the error under its
    category; asking again sends the very same request. *)
Theorem failed_list_call_can_be_retried (s : AppState) (a retry : Action)
    (c : Listing) (e : Thrown) :
  listCallOf a = Some c → listFailure a = Some e → listCallOf retry = Some c →
  (perform a s).1 = Raised e
  ∧ (∀ c', shown c' (step s a) = shown c' s)
  ∧ errors (step s a) !! listTabKey c = Some (Some (errorString e))
  ∧ effects (step (step s a) retry)
    = effects s ++ [Sent (listRequest c s); Sent (listRequest c s)].
Proof.
  intros Hc He Hretry. split_and!.
  - by apply (step_listFailure s a e c).
  - intros c'. by apply (step_listFailure s a e c').
  - rewrite step_errors.
    destruct a; try done; destruct reply; try done; cbn in *; simplify_eq;
      apply lookup_insert_eq.
  - rewrite (step_listCall _ retry c Hretry), (step_listCall s a c Hc).
    unfold listRequest. destruct (step_listFailure s a e c He) as [_ ->].
    by rewrite <- app_assoc.
Qed.

Lemma failed_list_call_can_be_retried_witness :
  let page := {| lt_tools := ["t1"]; lt_nextCursor := Some "c1" |} in
  let s := step initial (ListTools (Returned page)) in
  effects (step (step s (ListTools (Raised (newError "timeout"))))
                (ListTools (Returned page)))
  = effects s ++ [Sent {| method := "tools/list"; params := ParamsCursor "c1" |};
                  Sent {| method := "tools/list"; params := ParamsCursor "c1" |}].
Proof.
  cbn zeta.
  destruct (failed_list_call_can_be_retried
              (step initial (ListTools (Returned {| lt_tools := ["t1"];
                                                    lt_nextCursor := Some "c1" |})))
              (ListTools (Raised (newError "timeout")))
              (ListTools (Returned {| lt_tools := ["t1"]; lt_nextCursor := Some "c1" |}))
              ToolsListing (newError "timeout") eq_refl eq_refl eq_refl)
    as (_ & _ & _ & Hretry).
  exact Hretry.
Defined.

(** X7: a handler writes the list and cursor of its own listing only: a
    list call or clear of one listing, and every handler that is neither,
    leaves the list and the cursor of each other listing as they were. *)
Theorem listing_frame (s : AppState) (a : Action) (c : Listing) :
  listingOf a ≠ Some c → shown c (step s a) = shown c s.
Proof. apply step_shown. Qed.

Lemma listing_frame_witness :
  let s := step initial (ListResources (Returned {| lr_resources := Some ["r1"];
                                                     lr_nextCursor := Some "c1" |})) in
  shown ResourcesListing (step s ClearTools) = (["r1"], Some "c1").
Proof.
  cbn zeta.
  rewrite (listing_frame _ ClearTools ResourcesListing) by discriminate.
  reflexivity.
Defined.

Lemma run_shown (acts : list Action) (s : AppState) (c : Listing) :
  Forall (λ a, listingOf a ≠ Some c) acts → shown c (run acts s) = shown c s.
Proof.
  revert s. induction acts as [|a acts IH]; intros s Hacts; [done|].
  apply Forall_cons in Hacts as [Ha Hacts].
  rewrite run_cons, IH by done. by apply step_shown.
Qed.

Lemma step_pageCursor (s : AppState) (a : Action) (c : Listing) (cursor : option string) :
  listCallOf a = Some c → pageCursor a = Some cursor → (shown c (step s a)).2 = cursor.
Proof.
  intros Hc Hcursor.
  destruct a; try done; destruct reply; try done; cbn in *; simplify_eq;
    by destruct s.
Qed.

(** X8: a list call resumes where the last page of its listing stopped:
    after a successful list call answered with [nextCursor = cursor], and
    any number of handler calls on other listings or on none, the next list
    call of that listing sends [cursor] when it is a non-empty string and
    no cursor otherwise (an absent cursor and the empty string both start
    from the first page again). *)
Theorem list_call_resumes_from_last_cursor (s : AppState) (a next : Action)
    (acts : list Action) (c : Listing) (cursor : option string) :
  listCallOf a = Some c → pageCursor a = Some cursor →
  Forall (λ other, listingOf other ≠ Some c) acts →
  listCallOf next = Some c →
  let s' := run acts (step s a) in
  effects (step s' next)
  = effects s' ++ [Sent {| method := listMethod c; params := cursorParams cursor |}]
  ∧ cursorParams cursor
    = match cursor with
      | Some text => if decide (text = "") then ParamsEmpty else ParamsCursor text
      | None => ParamsEmpty
      end.
Proof.
  intros Hc Hcursor Hacts Hnext. cbn zeta. split; [|done].
  rewrite (step_listCall _ next c Hnext). unfold listRequest.
  rewrite (run_shown acts _ c Hacts).
  by rewrite (step_pageCursor s a c cursor Hc Hcursor).
Qed.

Lemma list_call_resumes_from_last_cursor_witness :
  let s' := run [CallTool "echo" [] (Raised (newError "x")); ClearTools]
              (step initial (ListPrompts (Returned {| lp_prompts := ["p1"];
                                                      lp_nextCursor := Some "" |}))) in
  effects (step s' (ListPrompts (Raised (newError "y"))))
  = effects s' ++ [Sent {| method := "prompts/list"; params := ParamsEmpty |}].
Proof.
  cbn zeta.
  destruct (list_call_resumes_from_last_cursor initial
              (ListPrompts (Returned {| lp_prompts := ["p1"]; lp_nextCursor := Some "" |}))
              (ListPrompts (Raised (newError "y")))
              [CallTool "echo" [] (Raised (newError "x")); ClearTools]
              PromptsListing (Some "") eq_refl eq_refl) as [Hsent _].
  - repeat constructor; discriminate.
  - reflexivity.
  - exact Hsent.
Defined.

End AppViewsFacts.

(** * The sampling queue when updaters run more than once

    The counters, the queue and the capability calls over sequences of
    handler calls in which React runs each updater any number of times. *)

Module AppRunsFacts.
Import App AppFacts AppViews.

(** ** One handler call with repeated updater runs *)

Lemma replicate_snoc {A} (n : nat) (x : A) : replicate n x ++ [x] = replicate (S n) x.
Proof. induction n as [|n IH]; [done|]. cbn. by rewrite IH. Qed.

Lemma iter_record (n : nat) (ev : Effect) (s : AppState) :
  Nat.iter n (record ev) s = recordAll (replicate n ev) s.
Proof.
  induction n as [|n IH].
  - destruct s. cbn. by rewrite app_nil_r.
  - rewrite Nat.iter_succ, IH, <- replicate_snoc. destruct s. cbn.
    by rewrite app_assoc.
Qed.

Lemma stepRuns_other (s : AppState) (a : Action) (extra : nat) :
  isOnPendingRequest a = false → (∀ i, ¬ decides i a) →
  stepRuns s (a, extra) = step s a.
Proof.
  intros Hqueue Hdecides. destruct a; try done.
  - by destruct (Hdecides i).
  - by destruct (Hdecides i).
Qed.

Lemma stepRuns_effects (s : AppState) (a : Action) (extra : nat) :
  effects (stepRuns s (a, extra))
  = effects s ++
    match a with
    | OnPendingRequest req resolve reject =>
        [Queued {| id := nextRequestId s + extra; request := req;
                   resolve := resolve; reject := reject |}]
    | HandleApproveSampling i result =>
        from_option (λ r, replicate (S extra) (Resolved r result)) [] (lookupPending i s)
    | HandleRejectSampling i =>
        from_option
          (λ r, replicate (S extra) (Rejected r (newError "Sampling request rejected")))
          [] (lookupPending i s)
    | ListResources _ =>
        [Sent {| method := "resources/list"; params := cursorParams (nextResourceCursor s) |}]
    | ListResourceTemplates _ =>
        [Sent {| method := "resources/templates/list";
                 params := cursorParams (nextResourceTemplateCursor s) |}]
    | ListPrompts _ =>
        [Sent {| method := "prompts/list"; params := cursorParams (nextPromptCursor s) |}]
    | ListTools _ =>
        [Sent {| method := "tools/list"; params := cursorParams (nextToolCursor s) |}]
    | CallTool name arguments _ => [Sent (toolsCall name arguments s)]
    | _ => []
    end.
Proof.
  destruct a as [req resolve reject | i result | i | | | | | | | | | |];
    unfold stepRuns, performRuns; cbn [fst snd];
    try (change (effects ((perform ?a s).2)) with (effects (step s a));
         by rewrite step_effects).
  - rewrite onPendingRequest_runs. by destruct s.
  - rewrite handleApproveSampling_runs.
    destruct (lookupPending i s); cbn [snd from_option];
      rewrite ?iter_record; destruct s; cbn; by rewrite ?app_nil_r.
  - rewrite handleRejectSampling_runs.
    destruct (lookupPending i s); cbn [snd from_option];
      rewrite ?iter_record; destruct s; cbn; by rewrite ?app_nil_r.
Qed.

Lemma stepRuns_counters (s : AppState) (a : Action) (extra : nat) :
  progressTokenRef (stepRuns s (a, extra))
  = progressTokenRef s + (if isCallTool a then 1 else 0)
  ∧ nextRequestId (stepRuns s (a, extra))
    = nextRequestId s + (if isOnPendingRequest a then S extra else 0).
Proof.
  destruct a as [req resolve reject | i result | i | | | | | | | | | |];
    unfold stepRuns, performRuns; cbn [fst snd isCallTool isOnPendingRequest];
    try (change ((perform ?a s).2) with (step s a);
         rewrite step_progressTokenRef, step_nextRequestId; lia).
  - rewrite onPendingRequest_runs. destruct s. cbn. lia.
  - rewrite handleApproveSampling_runs.
    destruct (lookupPending i s); cbn [snd from_option];
      rewrite ?iter_record; destruct s; cbn; lia.
  - rewrite handleRejectSampling_runs.
    destruct (lookupPending i s); cbn [snd from_option];
      rewrite ?iter_record; destruct s; cbn; lia.
Qed.

Lemma stepRuns_pendingSampleRequests (s : AppState) (a : Action) (extra : nat) :
  pendingSampleRequests (stepRuns s (a, extra))
  = match a with
    | OnPendingRequest req resolve reject =>
        pendingSampleRequests s
        ++ [{| id := nextRequestId s + extra; request := req;
               resolve := resolve; reject := reject |}]
    | HandleApproveSampling i _ | HandleRejectSampling i =>
        filter (λ r, id r ≠ i) (pendingSampleRequests s)
    | _ => pendingSampleRequests s
    end.
Proof.
  destruct a as [req resolve reject | i result | i | | | | | | | | | |];
    unfold stepRuns, performRuns; cbn [fst snd];
    try (change ((perform ?a s).2) with (step s a);
         by rewrite step_pendingSampleRequests).
  - rewrite onPendingRequest_runs. by destruct s.
  - rewrite handleApproveSampling_runs.
    destruct (lookupPending i s); cbn [snd from_option];
      rewrite ?iter_record; by destruct s.
  - rewrite handleRejectSampling_runs.
    destruct (lookupPending i s); cbn [snd from_option];
      rewrite ?iter_record; by destruct s.
Qed.

Lemma runRuns_snoc (calls : list (Action * nat)) (call : Action * nat) (s : AppState) :
  runRuns (calls ++ [call]) s = stepRuns (runRuns calls s) call.
Proof. apply foldl_snoc. Qed.

(** With each updater run once, a sequence of calls is a sequence of
    handler calls of the production build. *)
Lemma runRuns_once (acts : list Action) (s : AppState) :
  runRuns ((λ a, (a, 0)) <$> acts) s = run acts s.
Proof.
  revert s. induction acts as [|a acts IH]; intros s; [done|].
  cbn [fmap list_fmap]. unfold runRuns, run in *. cbn [foldl]. rewrite IH.
  f_equal. by destruct a.
Qed.

(** ** The queue over any sequence of calls *)

Lemma settledIds_app (l k : list Effect) :
  settledIds (l ++ k) = settledIds l ++ settledIds k.
Proof. apply omap_app. Qed.

Lemma settledIds_replicate (n : nat) (ev : Effect) (i : nat) :
  settles i ev = true → settledIds (replicate n ev) = replicate n i.
Proof.
  intros Hev. induction n as [|n IH]; [done|]. cbn [replicate].
  change (ev :: replicate n ev) with ([ev] ++ replicate n ev).
  rewrite settledIds_app, IH.
  destruct ev; try done; cbn in Hev; apply bool_decide_eq_true in Hev; by subst.
Qed.

Lemma assignedIds_replicate (n : nat) (ev : Effect) (i : nat) :
  settles i ev = true → assignedIds (replicate n ev) = [].
Proof.
  intros Hev. induction n as [|n IH]; [done|]. cbn [replicate].
  change (ev :: replicate n ev) with ([ev] ++ replicate n ev).
  rewrite assignedIds_app, IH. by destruct ev.
Qed.

Lemma assignedIds_cursorParams (m : string) (cursor : option string) :
  assignedIds [Sent {| method := m; params := cursorParams cursor |}] = [].
Proof. done. Qed.

Lemma assignedIds_stepRuns (s : AppState) (a : Action) (extra : nat) :
  assignedIds (effects (stepRuns s (a, extra)))
  = assignedIds (effects s)
    ++ match a with
       | OnPendingRequest _ _ _ => [nextRequestId s + extra]
       | _ => []
       end.
Proof.
  rewrite stepRuns_effects, assignedIds_app. f_equal.
  destruct a as [| i result | i | | | | | | | | | |]; try done.
  - destruct (lookupPending i s) as [r|]; [|done].
    apply (assignedIds_replicate _ _ (id r)). cbn. by apply bool_decide_eq_true.
  - destruct (lookupPending i s) as [r|]; [|done].
    apply (assignedIds_replicate _ _ (id r)). cbn. by apply bool_decide_eq_true.
Qed.

Lemma settledIds_stepRuns (s : AppState) (a : Action) (extra : nat) :
  settledIds (effects (stepRuns s (a, extra)))
  = settledIds (effects s)
    ++ match a with
       | HandleApproveSampling i _ | HandleRejectSampling i =>
           if decide (i ∈ queuedIds s) then replicate (S extra) i else []
       | _ => []
       end.
Proof.
  rewrite stepRuns_effects, settledIds_app. f_equal.
  destruct a as [| i result | i | | | | | | | | | |]; try done.
  - destruct (lookupPending i s) as [r|] eqn:Hfind.
    + apply lookupPending_Some in Hfind as [Hr <-].
      rewrite decide_True by by apply list_elem_of_fmap_2.
      apply settledIds_replicate. cbn. by apply bool_decide_eq_true.
    + apply lookupPending_None in Hfind. by rewrite decide_False.
  - destruct (lookupPending i s) as [r|] eqn:Hfind.
    + apply lookupPending_Some in Hfind as [Hr <-].
      rewrite decide_True by by apply list_elem_of_fmap_2.
      apply settledIds_replicate. cbn. by apply bool_decide_eq_true.
    + apply lookupPending_None in Hfind. by rewrite decide_False.
Qed.

Lemma queuedIds_stepRuns (s : AppState) (a : Action) (extra : nat) :
  queuedIds (stepRuns s (a, extra))
  = match a with
    | OnPendingRequest _ _ _ => queuedIds s ++ [nextRequestId s + extra]
    | HandleApproveSampling j _ | HandleRejectSampling j => filter (λ k, k ≠ j) (queuedIds s)
    | _ => queuedIds s
    end.
Proof.
  unfold queuedIds. rewrite stepRuns_pendingSampleRequests.
  destruct a; try done; [by rewrite fmap_app | apply fmap_id_filter..].
Qed.

Lemma queueRunsInvariant_initial : queueRunsInvariant initial.
Proof.
  split_and!.
  - constructor.
  - constructor.
  - by intros i ?%elem_of_nil.
  - intros i. split; [by intros ?%elem_of_nil|by intros [?%elem_of_nil|?%elem_of_nil]].
  - by intros i ?%elem_of_nil.
Qed.

Lemma queueRunsInvariant_step (s : AppState) (a : Action) (extra : nat) :
  queueRunsInvariant s → queueRunsInvariant (stepRuns s (a, extra)).
Proof.
  intros (Hqueued & Hassigned & Hbound & Hsplit & Hdisjoint).
  unfold queueRunsInvariant.
  rewrite queuedIds_stepRuns, assignedIds_stepRuns, settledIds_stepRuns.
  destruct (stepRuns_counters s a extra) as [_ ->].
  assert (Hqueue_bound : ∀ i, i ∈ queuedIds s → i < nextRequestId s).
  { intros i Hi. apply Hbound, Hsplit. by left. }
  destruct a as [req resolve reject | j result | j | | | | | | | | | |];
    cbn [isOnPendingRequest]; rewrite ?app_nil_r, ?Nat.add_0_r;
    try (split_and!; done).
  - split_and!.
    + apply NoDup_app. split_and!; [done| |apply NoDup_singleton].
      intros i Hi ->%list_elem_of_singleton. apply Hqueue_bound in Hi. lia.
    + apply NoDup_app. split_and!; [done| |apply NoDup_singleton].
      intros i Hi ->%list_elem_of_singleton. apply Hbound in Hi. lia.
    + intros i [Hi| ->%list_elem_of_singleton]%elem_of_app; [apply Hbound in Hi|]; lia.
    + intros i. rewrite !elem_of_app, list_elem_of_singleton, Hsplit. tauto.
    + intros i [Hi| ->%list_elem_of_singleton]%elem_of_app; [by apply Hdisjoint|].
      intros Hsettled. assert (nextRequestId s + extra < nextRequestId s); [|lia].
      apply Hbound, Hsplit. by right.
  - split_and!; [by apply NoDup_filter|done|done| |].
    + intros i. rewrite Hsplit, list_elem_of_filter, elem_of_app.
      case_decide as Hj.
      * rewrite elem_of_replicate. destruct (decide (i = j)) as [->|]; intuition lia.
      * rewrite elem_of_nil. destruct (decide (i = j)) as [->|]; intuition.
    + intros i [Hne Hi]%list_elem_of_filter [Hsettled|Hnew]%elem_of_app.
      * by apply (Hdisjoint i).
      * case_decide; [apply elem_of_replicate in Hnew as [? _]; done
                     |by apply elem_of_nil in Hnew].
  - split_and!; [by apply NoDup_filter|done|done| |].
    + intros i. rewrite Hsplit, list_elem_of_filter, elem_of_app.
      case_decide as Hj.
      * rewrite elem_of_replicate. destruct (decide (i = j)) as [->|]; intuition lia.
      * rewrite elem_of_nil. destruct (decide (i = j)) as [->|]; intuition.
    + intros i [Hne Hi]%list_elem_of_filter [Hsettled|Hnew]%elem_of_app.
      * by apply (Hdisjoint i).
      * case_decide; [apply elem_of_replicate in Hnew as [? _]; done
                     |by apply elem_of_nil in Hnew].
Qed.

Lemma queueRunsInvariant_run (calls : list (Action * nat)) :
  queueRunsInvariant (runRuns calls initial).
Proof.
  induction calls as [|[a extra] calls IH] using rev_ind.
  - apply queueRunsInvariant_initial.
  - rewrite runRuns_snoc. by apply queueRunsInvariant_step.
Qed.

Lemma invocations_settledIds (i : nat) (log : list Effect) :
  invocations i log = length (filter (λ k, k = i) (settledIds log)).
Proof.
  unfold invocations, settledIds. induction log as [|ev log IH]; [done|].
  change (length (List.filter (settles i) log)
          = length (filter (λ k, k = i) (settledIds log))) in IH.
  destruct ev as [| | r c | r e].
  - exact IH.
  - exact IH.
  - change (length (if bool_decide (id r = i) then Resolved r c :: List.filter (settles i) log
                    else List.filter (settles i) log)
            = length (filter (λ k, k = i) (id r :: settledIds log))).
    rewrite filter_cons. case_bool_decide.
    + rewrite decide_True by done. cbn. by rewrite IH.
    + by rewrite decide_False by done.
  - change (length (if bool_decide (id r = i) then Rejected r e :: List.filter (settles i) log
                    else List.filter (settles i) log)
            = length (filter (λ k, k = i) (id r :: settledIds log))).
    rewrite filter_cons. case_bool_decide.
    + rewrite decide_True by done. cbn. by rewrite IH.
    + by rewrite decide_False by done.
Qed.

Lemma decidedIds_invocations (i : nat) (log : list Effect) :
  i ∈ decidedIds log ↔ 0 < invocations i log.
Proof.
  unfold decidedIds. rewrite elem_of_remove_dups, invocations_settledIds. split.
  - intros Hi. destruct (filter (λ k, k = i) (settledIds log)) as [|k ks] eqn:Hfilter;
      [|cbn; lia].
    assert (i ∈ filter (λ k, k = i) (settledIds log)) as Hin
      by by apply list_elem_of_filter.
    rewrite Hfilter in Hin. by apply elem_of_nil in Hin.
  - intros Hlen. destruct (filter (λ k, k = i) (settledIds log)) as [|k ks] eqn:Hfilter;
      [cbn in Hlen; lia|].
    assert (k ∈ filter (λ k, k = i) (settledIds log)) as [-> Hin]%list_elem_of_filter
      by (rewrite Hfilter; apply list_elem_of_here).
    done.
Qed.

Lemma requests_assignedIds (calls : list (Action * nat)) (s : AppState) :
  length (assignedIds (effects (runRuns calls s)))
  = length (assignedIds (effects s)) + length (callsOf isOnPendingRequest calls).
Proof.
  induction calls as [|[a extra] calls IH] using rev_ind; [cbn; lia|].
  rewrite runRuns_snoc, assignedIds_stepRuns, length_app, IH.
  unfold callsOf. rewrite List.filter_app, length_app. cbn [List.filter fst].
  destruct a; cbn; lia.
Qed.

Lemma counters_runRuns (calls : list (Action * nat)) (s : AppState) :
  progressTokenRef (runRuns calls s)
  = progressTokenRef s + length (callsOf isCallTool calls)
  ∧ nextRequestId (runRuns calls s) = nextRequestId s + enqueueRuns calls.
Proof.
  induction calls as [|[a extra] calls [IHtoken IHid]] using rev_ind.
  - cbn. unfold enqueueRuns. cbn. lia.
  - rewrite runRuns_snoc.
    destruct (stepRuns_counters (runRuns calls s) a extra) as [-> ->].
    rewrite IHtoken, IHid. unfold enqueueRuns, callsOf.
    rewrite !List.filter_app, length_app, sum_list_with_app. cbn [List.filter fst].
    destruct a; cbn; lia.
Qed.

Lemma enqueueRuns_ge (calls : list (Action * nat)) :
  (length (callsOf isOnPendingRequest calls) ≤ enqueueRuns calls)%nat.
Proof.
  unfold enqueueRuns. induction (callsOf isOnPendingRequest calls) as [|call l IH]; cbn; lia.
Qed.

(** X1: over any sequence of handler calls, however often React runs the
    updaters, the progress-token counter is the number of [callTool] calls
    made so far, failed ones included; the request-id counter is the number
    of times the updater of [onPendingRequest] has run, which is at least
    the number of sampling requests received (and equal to it when every
    updater runs once). *)
Theorem counters_count_updater_runs (calls : list (Action * nat)) :
  let s := runRuns calls initial in
  progressTokenRef s = length (callsOf isCallTool calls)
  ∧ nextRequestId s = enqueueRuns calls
  ∧ (length (callsOf isOnPendingRequest calls) ≤ nextRequestId s)%nat.
Proof.
  cbn zeta. destruct (counters_runRuns calls initial) as [Htoken Hid].
  split_and!; [done|done|]. rewrite Hid. apply enqueueRuns_ge.
Qed.

(** X3: over any sequence of handler calls, however often React runs the
    updaters, the number of requests waiting in the queue (the figure on the
    Sampling tab) plus the number of requests whose capability has been
    called is the number of sampling requests received: every request is
    either still waiting or has been answered. *)
Theorem queue_length_balance_runs (calls : list (Action * nat)) :
  let s := runRuns calls initial in
  length (callsOf isOnPendingRequest calls)
  = length (pendingSampleRequests s) + length (decidedIds (effects s))
  ∧ ∀ i, i ∈ decidedIds (effects s) ↔ 0 < invocations i (effects s).
Proof.
  cbn zeta. split; [|intros i; apply decidedIds_invocations].
  destruct (queueRunsInvariant_run calls) as (Hqueued & Hassigned & _ & Hsplit & Hdisjoint).
  pose proof (requests_assignedIds calls initial) as Hrequests. cbn in Hrequests.
  rewrite <- Hrequests.
  assert (Hperm : assignedIds (effects (runRuns calls initial))
                  ≡ₚ queuedIds (runRuns calls initial)
                     ++ decidedIds (effects (runRuns calls initial))).
  { apply NoDup_Permutation; [done| |].
    - apply NoDup_app. split_and!; [done| |apply NoDup_remove_dups].
      intros i Hi Hdecided. unfold decidedIds in Hdecided.
      apply (proj1 (elem_of_remove_dups _ _)) in Hdecided. by apply (Hdisjoint i).
    - intros i. unfold decidedIds. by rewrite elem_of_app, elem_of_remove_dups. }
  rewrite Hperm, length_app. unfold queuedIds. by rewrite length_fmap.
Qed.

Lemma invocations_replicate (i n : nat) (ev : Effect) :
  settles i ev = true → invocations i (replicate n ev) = n.
Proof.
  intros Hev. unfold invocations. induction n as [|n IH]; [done|].
  cbn. rewrite Hev. cbn. by rewrite IH.
Qed.

(** In any reachable state, a decision on a queued entry calls the entry's
    capability once for each run of the updater. *)
Lemma decision_invocations_runs (calls : list (Action * nat)) (r : PendingSampleRequest)
    (a : Action) (extra : nat) :
  let s := runRuns calls initial in
  r ∈ pendingSampleRequests s → decides (id r) a →
  invocations (id r) (effects s) = 0
  ∧ invocations (id r) (effects (stepRuns s (a, extra))) = S extra.
Proof.
  cbn zeta. intros Hr Ha.
  destruct (queueRunsInvariant_run calls) as (Hqueued & _ & _ & _ & Hdisjoint).
  assert (Hnone : invocations (id r) (effects (runRuns calls initial)) = 0).
  { destruct (invocations (id r) (effects (runRuns calls initial))) eqn:Hcount; [done|].
    destruct (Hdisjoint (id r)); [by apply list_elem_of_fmap_2|].
    apply elem_of_remove_dups. apply decidedIds_invocations. lia. }
  split; [done|].
  rewrite stepRuns_effects, invocations_app, Hnone.
  pose proof (lookupPending_unique _ r Hqueued Hr) as Hfind.
  destruct a; try done; cbn in Ha; subst; rewrite Hfind; cbn [from_option];
    apply invocations_replicate; cbn; by apply bool_decide_eq_true.
Qed.

(** However often the updaters run, a decision on a queued entry calls
    that entry's capability, with the fixed error when it is a reject, and
    takes that entry and no other out of the queue. *)
Lemma decision_runs (calls : list (Action * nat)) (r : PendingSampleRequest) (extra : nat) :
  let s := runRuns calls initial in
  r ∈ pendingSampleRequests s →
  (∀ result, effects (stepRuns s (HandleApproveSampling (id r) result, extra))
             = effects s ++ replicate (S extra) (Resolved r result))
  ∧ effects (stepRuns s (HandleRejectSampling (id r), extra))
    = effects s
      ++ replicate (S extra) (Rejected r (newError "Sampling request rejected"))
  ∧ ∀ a r', decides (id r) a →
      (r' ∈ pendingSampleRequests (stepRuns s (a, extra))
       ↔ r' ∈ pendingSampleRequests s ∧ r' ≠ r).
Proof.
  cbn zeta. intros Hr.
  destruct (queueRunsInvariant_run calls) as (Hqueued & _).
  pose proof (lookupPending_unique _ r Hqueued Hr) as Hfind.
  split_and!.
  - intros result. by rewrite stepRuns_effects, Hfind.
  - by rewrite stepRuns_effects, Hfind.
  - intros a r' Ha.
    assert (pendingSampleRequests (stepRuns (runRuns calls initial) (a, extra))
            = filter (λ r0, id r0 ≠ id r) (pendingSampleRequests (runRuns calls initial)))
      as -> by (rewrite stepRuns_pendingSampleRequests;
                destruct a; try done; cbn in Ha; by subst).
    rewrite list_elem_of_filter. split; intros [H1 H2]; split; try done.
    + by intros ->.
    + intros Hid. apply H2.
      pose proof (lookupPending_unique _ r' Hqueued H1) as Hfind'.
      rewrite Hid, Hfind in Hfind'. by injection Hfind'.
Qed.

(** However often the updaters run, the ids given to the requests grow
    strictly in arrival order, and so do the ids waiting in the queue. *)
Lemma ids_increasing_runs (calls : list (Action * nat)) :
  let s := runRuns calls initial in
  StronglySorted lt (assignedIds (effects s)) ∧ StronglySorted lt (queuedIds s).
Proof.
  cbn zeta. induction calls as [|[a extra] calls [IHassigned IHqueued]] using rev_ind.
  - split; constructor.
  - destruct (queueRunsInvariant_run calls) as (_ & _ & Hbound & Hsplit & _).
    rewrite runRuns_snoc, assignedIds_stepRuns, queuedIds_stepRuns.
    destruct a; rewrite ?app_nil_r; try done.
    + split; (apply StronglySorted_app_2; [|done|repeat constructor]);
        intros k n Hk ->%list_elem_of_singleton.
      * apply Hbound in Hk. lia.
      * assert (k < nextRequestId (runRuns calls initial)); [|lia].
        apply Hbound, Hsplit. by left.
    + split; [done|]. by apply AppViewsFacts.StronglySorted_filter.
    + split; [done|]. by apply AppViewsFacts.StronglySorted_filter.
Qed.

(** A decision on an id that is not in the queue, which includes every
    later decision on an id already decided, returns and changes nothing,
    however often the updater runs. *)
Lemma decision_unknown_id_runs (i : nat) (a : Action) (extra : nat) (s : AppState) :
  decides i a → i ∉ queuedIds s → performRuns a extra s = (Returned tt, s).
Proof.
  intros Ha Hi. pose proof Hi as Hfind%lookupPending_None.
  destruct a; try done; cbn in Ha; subst; cbn [performRuns].
  - rewrite handleApproveSampling_runs, Hfind, filter_other_ids by done.
    cbn. by rewrite setPendingSampleRequests_same.
  - rewrite handleRejectSampling_runs, Hfind, filter_other_ids by done.
    cbn. by rewrite setPendingSampleRequests_same.
Qed.

(** C2: the claim fails in a development build, where React runs each
    updater twice (StrictMode, turned on in next.config).  A sampling
    request arrives and its entry gets id 1; approving id 1 then calls the
    entry's resolve twice, and rejecting it instead calls its reject twice,
    where the claim allows one call.  In a production build the same steps
    give id 0 and one call. *)
Theorem decision_calls_capability_once_per_updater_run :
  let entry := {| id := 1; request := "summarise"; resolve := 10; reject := 11 |} in
  let arrived := runRuns [(OnPendingRequest "summarise" 10 11, 1)] initial in
  let approved := stepRuns arrived (HandleApproveSampling 1 "ok", 1) in
  let rejected := stepRuns arrived (HandleRejectSampling 1, 1) in
  pendingSampleRequests arrived = [entry]
  ∧ effects approved = effects arrived ++ [Resolved entry "ok"; Resolved entry "ok"]
  ∧ invocations 1 (effects approved) = 2
  ∧ pendingSampleRequests approved = []
  ∧ effects rejected
    = effects arrived ++ [Rejected entry (newError "Sampling request rejected");
                          Rejected entry (newError "Sampling request rejected")]
  ∧ invocations 1 (effects rejected) = 2
  ∧ invocations 0 (effects (run [OnPendingRequest "summarise" 10 11;
                                 HandleApproveSampling 0 "ok"] initial)) = 1.
Proof. cbn zeta. split_and!; reflexivity. Qed.

End AppRunsFacts.

(** * Properties of the remaining [App] handlers *)

Module AppHandlersFacts.
Import App AppFacts AppHandlers.

(** ** The handlers in closed form *)

Lemma subscribeToResource_unfold (uri : string) (reply : Outcome unit) (c : Component) :
  subscribeToResource uri reply c
  = if decide (uri ∈ resourceSubscriptions c) then (Returned tt, c)
    else match reply with
         | Returned _ =>
             (Returned tt,
              setResourceSubscriptions (resourceSubscriptions c ∪ {[uri]})
                (resourcesError None (logRequest (ResourcesSubscribe uri) c)))
         | Raised e =>
             (Raised e,
              resourcesError (Some (errorString e))
                (logRequest (ResourcesSubscribe uri) c))
         end.
Proof.
  unfold subscribeToResource, mbind, C_bind, look. cbn.
  case_decide; [done|]. by destruct reply, c.
Qed.

Lemma unsubscribeFromResource_unfold (uri : string) (reply : Outcome unit)
    (c : Component) :
  unsubscribeFromResource uri reply c
  = if decide (uri ∈ resourceSubscriptions c) then
      match reply with
      | Returned _ =>
          (Returned tt,
           setResourceSubscriptions (resourceSubscriptions c ∖ {[uri]})
             (resourcesError None (logRequest (ResourcesUnsubscribe uri) c)))
      | Raised e =>
          (Raised e,
           resourcesError (Some (errorString e))
             (logRequest (ResourcesUnsubscribe uri) c))
      end
    else (Returned tt, c).
Proof.
  unfold unsubscribeFromResource, mbind, C_bind, look. cbn.
  case_decide; [|done]. by destruct reply, c.
Qed.

(** Runs the handler of an event on a component given by its fields. *)
Ltac run_handle :=
  unfold react, handle;
  unfold core, detached, mbind, C_bind, update, look;
  cbn [app fst snd];
  rewrite ?onPendingRequest_runs, ?handleApproveSampling_runs, ?handleRejectSampling_runs;
  cbn -[union difference Nat.iter Nat.add];
  rewrite ?subscribeToResource_unfold, ?unsubscribeFromResource_unfold;
  cbn -[union difference].

Lemma react_notifications (c : Component) (ev : Event) :
  notifications (react c ev)
  = notifications c ++ match ev with Notification n => [n] | _ => [] end
  ∧ stdErrNotifications (react c ev)
    = stdErrNotifications c ++ match ev with StdErr n => [n] | _ => [] end.
Proof.
  destruct ev; try destruct reply; destruct c as [s ? ? subs ? ? ? ? ? ? ?];
    run_handle; try case_decide; cbn; rewrite ?app_nil_r; try done.
Qed.



Lemma union_difference_singleton (X : gset string) (x : string) :
  x ∉ X → (X ∪ {[x]}) ∖ {[x]} = X.
Proof.
  intros Hx. apply set_eq. intros y.
  rewrite elem_of_difference, elem_of_union, elem_of_singleton.
  split; [by intros [[?|?] ?]|]. intros Hy. split; [by left|]. by intros ->.
Qed.

Lemma difference_union_singleton (X : gset string) (x : string) :
  x ∈ X → (X ∖ {[x]}) ∪ {[x]} = X.
Proof.
  intros Hx. apply set_eq. intros y.
  rewrite elem_of_union, elem_of_difference, elem_of_singleton.
  destruct (decide (y = x)) as [->|]; tauto.
Qed.


Lemma react_logLevel (c : Component) (ev : Event) :
  logLevel (react c ev) = default (logLevel c) (acceptedLogLevel ev).
Proof.
  destruct ev; try destruct reply; destruct c as [s ? ? subs ? ? ? ? ? ? ?];
    run_handle; try case_decide; by cbn.
Qed.

Lemma session_snoc (events : list Event) (ev : Event) (c : Component) :
  session (events ++ [ev]) c = react (session events c) ev.
Proof. apply foldl_snoc. Qed.

(** ** Resource subscriptions *)

(** X9: subscribing to a resource that is already subscribed, and
    unsubscribing from one that is not, sends no request and changes
    nothing. *)
Theorem subscription_request_only_when_needed (uri : string) (reply : Outcome unit)
    (c : Component) :
  (uri ∈ resourceSubscriptions c → subscribeToResource uri reply c = (Returned tt, c))
  ∧ (uri ∉ resourceSubscriptions c →
     unsubscribeFromResource uri reply c = (Returned tt, c)).
Proof.
  split; intros Huri.
  - by rewrite subscribeToResource_unfold, decide_True.
  - by rewrite unsubscribeFromResource_unfold, decide_False.
Qed.

Lemma subscription_request_only_when_needed_witness :
  let c := react mounted (ClickSubscribe "file:///a" (Returned tt)) in
  subscribeToResource "file:///a" (Raised (newError "down")) c = (Returned tt, c)
  ∧ unsubscribeFromResource "file:///b" (Raised (newError "down")) c = (Returned tt, c).
Proof.
  cbn zeta.
  destruct (subscription_request_only_when_needed "file:///a" (Raised (newError "down"))
              (react mounted (ClickSubscribe "file:///a" (Returned tt)))) as [Hsub _].
  destruct (subscription_request_only_when_needed "file:///b" (Raised (newError "down"))
              (react mounted (ClickSubscribe "file:///a" (Returned tt)))) as [_ Hunsub].
  split.
  - apply Hsub. by vm_compute.
  - apply Hunsub. by vm_compute.
Defined.

Lemma requests_resourcesError v (c : Component) :
  requests (resourcesError v c) = requests c.
Proof. by destruct c. Qed.

Lemma requests_logRequest req (c : Component) :
  requests (logRequest req c) = requests c ++ [req].
Proof. by destruct c. Qed.

Lemma resourceSubscriptions_set v (c : Component) :
  resourceSubscriptions (setResourceSubscriptions v c) = v.
Proof. by destruct c. Qed.

Lemma requests_setResourceSubscriptions v (c : Component) :
  requests (setResourceSubscriptions v c) = requests c.
Proof. by destruct c. Qed.

(** X10: a subscription that the server accepts is undone by an accepted
    unsubscription, and the other way round: the set of subscribed
    resources is back to what it was, and exactly the two requests were
    sent. *)
Theorem subscribe_unsubscribe_round_trip (uri : string) (c : Component) :
  (uri ∉ resourceSubscriptions c →
   let c' := (unsubscribeFromResource uri (Returned tt)
                (subscribeToResource uri (Returned tt) c).2).2 in
   resourceSubscriptions c' = resourceSubscriptions c
   ∧ requests c' = requests c ++ [ResourcesSubscribe uri; ResourcesUnsubscribe uri])
  ∧ (uri ∈ resourceSubscriptions c →
     let c' := (subscribeToResource uri (Returned tt)
                  (unsubscribeFromResource uri (Returned tt) c).2).2 in
     resourceSubscriptions c' = resourceSubscriptions c
     ∧ requests c' = requests c ++ [ResourcesUnsubscribe uri; ResourcesSubscribe uri]).
Proof.
  split; intros Huri; cbn zeta.
  - rewrite (subscribeToResource_unfold uri _ c), decide_False by done. cbn [snd].
    rewrite unsubscribeFromResource_unfold, resourceSubscriptions_set.
    rewrite decide_True by (rewrite elem_of_union, elem_of_singleton; by right).
    cbn [snd].
    rewrite resourceSubscriptions_set, requests_setResourceSubscriptions,
      requests_resourcesError, requests_logRequest, requests_setResourceSubscriptions,
      requests_resourcesError, requests_logRequest, <- app_assoc.
    split; [by apply union_difference_singleton|done].
  - rewrite (unsubscribeFromResource_unfold uri _ c), decide_True by done. cbn [snd].
    rewrite subscribeToResource_unfold, resourceSubscriptions_set.
    rewrite decide_False
      by (rewrite elem_of_difference, elem_of_singleton; by intros [_ ?]).
    cbn [snd].
    rewrite resourceSubscriptions_set, requests_setResourceSubscriptions,
      requests_resourcesError, requests_logRequest, requests_setResourceSubscriptions,
      requests_resourcesError, requests_logRequest, <- app_assoc.
    split; [by apply difference_union_singleton|done].
Qed.

Lemma subscribe_unsubscribe_round_trip_witness :
  requests (unsubscribeFromResource "file:///a" (Returned tt)
              (subscribeToResource "file:///a" (Returned tt) mounted).2).2
  = [ResourcesSubscribe "file:///a"; ResourcesUnsubscribe "file:///a"].
Proof.
  destruct (subscribe_unsubscribe_round_trip "file:///a" mounted) as [Hfresh _].
  destruct Hfresh as [_ Hrequests]; [by vm_compute|]. exact Hrequests.
Defined.

Lemma app_resourcesError v (c : Component) :
  errors (app (resourcesError v c)) = <["resources" := v]> (errors (app c)).
Proof. destruct c as [s ? ? ? ? ? ? ? ? ? ?]. by destruct s. Qed.

Lemma resourceSubscriptions_resourcesError v (c : Component) :
  resourceSubscriptions (resourcesError v c) = resourceSubscriptions c.
Proof. by destruct c. Qed.

Lemma resourceSubscriptions_logRequest req (c : Component) :
  resourceSubscriptions (logRequest req c) = resourceSubscriptions c.
Proof. by destruct c. Qed.

(** X11: when the server refuses a subscription or an unsubscription, the
    failure reaches the caller, the set of subscribed resources stays as it
    was, and the error string is shown under the resources category. *)
Theorem refused_subscription_changes_nothing (uri : string) (e : Thrown) (c : Component) :
  let refused :=
    if decide (uri ∈ resourceSubscriptions c)
    then unsubscribeFromResource uri (Raised e) c
    else subscribeToResource uri (Raised e) c in
  refused.1 = Raised e
  ∧ resourceSubscriptions refused.2 = resourceSubscriptions c
  ∧ errors (app refused.2) !! "resources" = Some (Some (errorString e)).
Proof.
  cbn zeta. case_decide as Huri.
  - rewrite unsubscribeFromResource_unfold, decide_True by done. cbn [fst snd].
    rewrite resourceSubscriptions_resourcesError, resourceSubscriptions_logRequest,
      app_resourcesError.
    split_and!; [done..|apply lookup_insert_eq].
  - rewrite subscribeToResource_unfold, decide_False by done. cbn [fst snd].
    rewrite resourceSubscriptions_resourcesError, resourceSubscriptions_logRequest,
      app_resourcesError.
    split_and!; [done..|apply lookup_insert_eq].
Qed.

Lemma last_snoc_omap {A B} (f : A → option B) (l : list A) (x : A) :
  last (omap f (l ++ [x])) = match f x with Some y => Some y | None => last (omap f l) end.
Proof.
  rewrite omap_app. change (omap f [x]) with (option_list (f x)).
  destruct (f x) as [y|]; [|by rewrite app_nil_r].
  change (option_list (Some y)) with [y]. by rewrite last_snoc.
Qed.

(** ** Subscription calls in flight *)

















(** ** Log level, ping and the notification logs *)

(** X13: the log level shown is the level of the most recent change the
    server accepted, or [debug] if there is none; a refused change reaches
    the caller as a failure and leaves the component as it was, with no
    error under any category. *)
Theorem logLevel_follows_last_accepted_change (events : list Event) :
  logLevel (session events mounted) = default "debug" (last (omap acceptedLogLevel events))
  ∧ ∀ (level : LoggingLevel) (e : Thrown) (c : Component),
      handle (ChangeLogLevel level (Raised e)) c
      = (Raised e, logRequest (LoggingSetLevel level) c).
Proof.
  split.
  - induction events as [|ev events IH] using rev_ind; [done|].
    rewrite session_snoc, react_logLevel, last_snoc_omap, IH.
    by destruct (acceptedLogLevel ev).
  - intros level e c. by destruct c.
Qed.

(** X14: the two notification logs are append-only: after any sequence of
    events they hold what they held before followed by the notifications
    that arrived, in arrival order; no handler removes or reorders an
    entry. *)
Theorem notification_logs_append_only (events : list Event) (c : Component) :
  notifications (session events c) = notifications c ++ arrivedNotifications events
  ∧ stdErrNotifications (session events c)
    = stdErrNotifications c ++ arrivedStdErr events.
Proof.
  induction events as [|ev events [IHn IHs]] using rev_ind.
  - cbn. by rewrite !app_nil_r.
  - rewrite session_snoc. destruct (react_notifications (session events c) ev) as [-> ->].
    rewrite IHn, IHs. unfold arrivedNotifications, arrivedStdErr.
    rewrite !omap_app, <- !app_assoc. by destruct ev.
Qed.

(** ** The handlers given to the tabs *)

(** X15: every handler the tabs receive returns normally whatever the
    server answers (only the log-level change hands a failure on); after a
    list, read, get or call click the category of the request shows [null]
    if the request succeeded and the error string if it failed; a ping,
    failed or not, leaves the component as it was. *)
Theorem tab_handlers_never_throw (ev : Event) (c : Component) :
  (handle ev c).1
  = match ev with
    | ChangeLogLevel _ (Raised e) => Raised e
    | _ => Returned tt
    end
  ∧ (∀ k v, clickOutcome ev = Some (k, v) → errors (app (react c ev)) !! k = Some v)
  ∧ ∀ reply, handle (ClickPing reply) c = (Returned tt, logRequest Ping c).
Proof.
  split_and!.
  - destruct ev; try destruct reply; destruct c as [s ? ? subs ? ? ? ? ? ? ?];
      unfold handle;
      unfold core, detached, mbind, C_bind, update;
      cbn [app fst snd];
      rewrite ?onPendingRequest_runs, ?handleApproveSampling_runs,
        ?handleRejectSampling_runs; by cbn.
  - intros k v Hclick.
    destruct ev; try done; destruct reply; cbn in Hclick; simplify_eq;
      destruct c as [s ? ? subs ? ? ? ? ? ? ?]; destruct s;
      run_handle; apply lookup_insert_eq.
  - intros reply. destruct c. by destruct reply.
Qed.

Lemma tab_handlers_never_throw_witness :
  errors (app (react mounted (ClickReadResource "file:///a" (Raised (newError "gone")))))
  !! "resources" = Some (Some "gone").
Proof.
  destruct (tab_handlers_never_throw
              (ClickReadResource "file:///a" (Raised (newError "gone"))) mounted)
    as (_ & Hshown & _).
  apply Hshown. reflexivity.
Defined.

(** X16: after a click on the call button a result is always shown: the
    server's response, or the error result built from the failure; the
    result of an earlier call is never left in place. *)
Theorem call_click_always_shows_a_result (name : string)
    (arguments : list (string * string)) (reply : Outcome CompatibilityCallToolResult)
    (c : Component) :
  toolResult (app (react c (ClickCallTool name arguments reply)))
  = Some match reply with
         | Returned response => response
         | Raised e => CallToolResult [TextContent (errorString e)] (Some true)
         end.
Proof.
  destruct reply; destruct c as [s ? ? subs ? ? ? ? ? ? ?]; by destruct s.
Qed.

(** ** The default tab *)

Lemma announced_keys (serverCapabilities : option (gmap string Capability))
    (key : string) :
  key ∈ (map_to_list (default ∅ serverCapabilities)).*1
  ↔ announced serverCapabilities key = true.
Proof.
  unfold announced. rewrite list_elem_of_fmap.
  destruct serverCapabilities as [capabilities|]; cbn.
  - rewrite bool_decide_eq_true. split.
    + intros [[key' capability] [-> Hin%elem_of_map_to_list]]. by exists capability.
    + intros [capability Hin]. exists (key, capability).
      split; [done|]. by apply elem_of_map_to_list.
  - rewrite map_to_list_empty. split; [|done]. by intros [? [_ ?%elem_of_nil]].
Qed.

Lemma fallback_tab_available (serverCapabilities : option (gmap string Capability)) :
  let tab := if announced serverCapabilities "resources" then "resources"
             else if announced serverCapabilities "prompts" then "prompts"
             else if announced serverCapabilities "tools" then "tools"
             else "ping" in
  tab = "ping" ∨ announced serverCapabilities tab = true.
Proof.
  cbn zeta.
  destruct (announced serverCapabilities "resources") eqn:Hresources;
    [right; exact Hresources|].
  destruct (announced serverCapabilities "prompts") eqn:Hprompts;
    [right; exact Hprompts|].
  destruct (announced serverCapabilities "tools") eqn:Htools;
    [right; exact Htools|].
  left. reflexivity.
Qed.

(** X17: the tab opened first is [ping] or the name of a capability the
    server announced, so it is never a resources, prompts or tools tab that
    is disabled; a fragment in the address that names an announced
    capability wins; and without capabilities the tab is [ping]. *)
Theorem default_tab_is_available (hash : string)
    (serverCapabilities : option (gmap string Capability)) :
  let tab := getDefaultTabValue hash serverCapabilities in
  (tab = "ping" ∨ announced serverCapabilities tab = true)
  ∧ (hash ≠ "" → announced serverCapabilities (slice1 hash) = true → tab = slice1 hash)
  ∧ (serverCapabilities = None → tab = "ping").
Proof.
  cbn zeta. unfold getDefaultTabValue. split_and!.
  - destruct (decide (hash = "")) as [Hempty|Hhash].
    + apply fallback_tab_available.
    + destruct (decide (slice1 hash ∈ (map_to_list (default ∅ serverCapabilities)).*1))
        as [Hkey|Hkey].
      * right. apply announced_keys, Hkey.
      * apply fallback_tab_available.
  - intros Hhash Hkey. rewrite decide_False by exact Hhash.
    rewrite decide_True by apply announced_keys, Hkey. reflexivity.
  - intros ->.
    destruct (decide (hash = "")) as [Hempty|Hhash]; [reflexivity|].
    rewrite decide_False; [reflexivity|].
    change (default ∅ None) with (∅ : gmap string Capability).
    rewrite map_to_list_empty. apply not_elem_of_nil.
Qed.

Lemma default_tab_is_available_witness :
  getDefaultTabValue "#tools" (Some (<["tools" := "{}"]> (<["prompts" := "{}"]> ∅)))
  = "tools"
  ∧ getDefaultTabValue "#resources" None = "ping".
Proof.
  destruct (default_tab_is_available "#tools"
              (Some (<["tools" := "{}"]> (<["prompts" := "{}"]> ∅)))) as (_ & Hhash & _).
  destruct (default_tab_is_available "#resources" None) as (_ & _ & Hnone).
  split.
  - apply Hhash; [discriminate | by vm_compute].
  - by apply Hnone.
Defined.

End AppHandlersFacts.

(** * Properties of the remaining [MCPServerButton] handlers *)

Module ServerMenuFacts.
Import MCPServerButton MCPServerButtonFacts ServerMenu.

(** ** Reconciliation keeps the order of the list *)

Lemma NoDup_newActiveIds (serverStates : gmap string ServerState)
    (activeServerIds : list string) :
  NoDup (newActiveIds serverStates activeServerIds).
Proof.
  unfold newActiveIds.
  apply (sublist_NoDup _ (map_to_list serverStates).*1).
  - apply NoDup_fst_map_to_list.
  - apply fmap_sublist, sublist_filter.
Qed.

Lemma reconciled_unfold (serverStates : gmap string ServerState)
    (activeServerIds : list string) :
  reconciled serverStates activeServerIds
  = updatedActiveIds serverStates activeServerIds
    ++ newActiveIds serverStates activeServerIds.
Proof.
  unfold reconciled, reconcile. cbn zeta. case_decide as Hchange; [done|]. cbn.
  assert (length (updatedActiveIds serverStates activeServerIds)
          = length activeServerIds) as Hlen by lia.
  assert (newActiveIds serverStates activeServerIds = []) as ->
    by (apply nil_length_inv; lia).
  rewrite app_nil_r. symmetry. apply filter_all.
  intros i Hi. apply Is_true_true, isRunning_runningIds.
  by apply (updatedActiveIds_all serverStates activeServerIds).
Qed.

Lemma NoDup_reconciled (serverStates : gmap string ServerState)
    (activeServerIds : list string) :
  NoDup activeServerIds → NoDup (reconciled serverStates activeServerIds).
Proof.
  intros Hnodup. rewrite reconciled_unfold. apply NoDup_app. split_and!.
  - by apply NoDup_filter.
  - intros i [_ Hi]%elem_of_updatedActiveIds [_ Hnew]%elem_of_newActiveIds. done.
  - apply NoDup_newActiveIds.
Qed.

(** X18: reconciliation never reorders or duplicates: the active ids that
    are still Running keep their places at the front of the list, the newly
    Running servers follow, and a list without duplicates stays so. *)
Theorem reconcile_keeps_order (serverStates : gmap string ServerState)
    (activeServerIds : list string) :
  reconciled serverStates activeServerIds
  = filter (λ i, i ∈ runningIds serverStates) activeServerIds
    ++ newActiveIds serverStates activeServerIds
  ∧ (∀ i, i ∈ newActiveIds serverStates activeServerIds
          ↔ i ∈ runningIds serverStates ∧ i ∉ activeServerIds)
  ∧ (NoDup activeServerIds → NoDup (reconciled serverStates activeServerIds)).
Proof.
  split_and!.
  - rewrite reconciled_unfold. f_equal. unfold updatedActiveIds.
    apply list_filter_iff. intros i.
    by rewrite Is_true_true, isRunning_runningIds.
  - apply elem_of_newActiveIds.
  - apply NoDup_reconciled.
Qed.

Lemma reconcile_keeps_order_witness :
  NoDup (reconciled exampleStates ["search"; "files"]).
Proof.
  destruct (reconcile_keeps_order exampleStates ["search"; "files"]) as (_ & _ & Hnodup).
  apply Hnodup. apply NoDup_cons.
  split; [by intros [=]%list_elem_of_singleton | apply NoDup_singleton].
Defined.

(** X19: when the active list has no duplicates, the number of active
    servers shown after reconciliation is the number of Running servers. *)
Theorem reconciled_count_is_running_count (serverStates : gmap string ServerState)
    (activeServerIds : list string) :
  NoDup activeServerIds →
  length (reconciled serverStates activeServerIds) = size (runningIds serverStates).
Proof.
  intros Hnodup. rewrite <- (reconciled_runningIds serverStates activeServerIds).
  rewrite size_list_to_set; [done|]. by apply NoDup_reconciled.
Qed.

Lemma reconciled_count_is_running_count_witness :
  length (reconciled exampleStates ["search"; "files"]) = 2.
Proof.
  rewrite (reconciled_count_is_running_count exampleStates ["search"; "files"]).
  - by vm_compute.
  - apply NoDup_cons.
    split; [by intros [=]%list_elem_of_singleton | apply NoDup_singleton].
Defined.

(** ** Toggling one server *)

Lemma toggleServer_active (serverStates : gmap string ServerState)
    (activeServerIds : list string) (i : string) :
  i ∈ activeServerIds →
  toggleServer serverStates activeServerIds i
  = (filter (λ serverId, serverId ≠ i) activeServerIds, [Disconnect i]).
Proof. intros Hi. unfold toggleServer. by rewrite bool_decide_eq_true_2. Qed.

Lemma toggleServer_inactive (serverStates : gmap string ServerState)
    (activeServerIds : list string) (i : string) :
  i ∉ activeServerIds →
  toggleServer serverStates activeServerIds i
  = match statusOf serverStates i with
    | Some Running => (activeServerIds ++ [i], [])
    | Some Stopped | Some Failed => (activeServerIds ++ [i], [Connect i])
    | _ => (activeServerIds, [])
    end.
Proof. intros Hi. unfold toggleServer. by rewrite bool_decide_eq_false_2. Qed.

Lemma toggleServer_others (serverStates : gmap string ServerState)
    (activeServerIds : list string) (i j : string) :
  j ≠ i → j ∈ (toggleServer serverStates activeServerIds i).1 ↔ j ∈ activeServerIds.
Proof.
  intros Hj. destruct (decide (i ∈ activeServerIds)) as [Hi|Hi].
  - rewrite toggleServer_active by done. cbn [fst]. rewrite list_elem_of_filter. tauto.
  - rewrite toggleServer_inactive by done.
    destruct (statusOf serverStates i) as [[]|]; cbn [fst];
      rewrite ?elem_of_app, ?list_elem_of_singleton; tauto.
Qed.

Lemma NoDup_toggleServer (serverStates : gmap string ServerState)
    (activeServerIds : list string) (i : string) :
  NoDup activeServerIds → NoDup (toggleServer serverStates activeServerIds i).1.
Proof.
  intros Hnodup. destruct (decide (i ∈ activeServerIds)) as [Hi|Hi].
  - rewrite toggleServer_active by done. by apply NoDup_filter.
  - rewrite toggleServer_inactive by done.
    destruct (statusOf serverStates i) as [[]|]; cbn [fst]; try done;
      (apply NoDup_app; split_and!; [done| |apply NoDup_singleton]);
      by intros j Hj ->%list_elem_of_singleton.
Qed.

(** X20: toggling a server changes the membership of that server only:
    every other id is active afterwards exactly if it was before; an active
    server is removed; and a list without duplicates stays so. *)
Theorem toggleServer_changes_one_server (serverStates : gmap string ServerState)
    (activeServerIds : list string) (i : string) :
  let toggled := (toggleServer serverStates activeServerIds i).1 in
  (∀ j, j ≠ i → j ∈ toggled ↔ j ∈ activeServerIds)
  ∧ (i ∈ activeServerIds → i ∉ toggled)
  ∧ (NoDup activeServerIds → NoDup toggled).
Proof.
  cbn zeta. split_and!.
  - intros j. apply toggleServer_others.
  - intros Hi. rewrite toggleServer_active by done. cbn [fst].
    rewrite list_elem_of_filter. by intros [? _].
  - apply NoDup_toggleServer.
Qed.

Lemma toggleServer_changes_one_server_witness :
  "clock" ∈ (toggleServer exampleStates ["clock"; "files"] "files").1
  ∧ "files" ∉ (toggleServer exampleStates ["clock"; "files"] "files").1.
Proof.
  destruct (toggleServer_changes_one_server exampleStates ["clock"; "files"] "files")
    as (Hothers & Hremoved & _).
  split.
  - apply Hothers; [discriminate|]. apply list_elem_of_here.
  - apply Hremoved. apply list_elem_of_further, list_elem_of_here.
Defined.

(** X21: what toggling asks of the manager: an active server is
    disconnected, whatever its status; an inactive server is connected only
    when it is Stopped or Failed; toggling an inactive server that is
    Starting, or one the manager does not know, does nothing at all. *)
Theorem toggleServer_calls (serverStates : gmap string ServerState)
    (activeServerIds : list string) (i : string) :
  let made := (toggleServer serverStates activeServerIds i).2 in
  (i ∈ activeServerIds → made = [Disconnect i])
  ∧ (i ∉ activeServerIds →
     made = if decide (statusOf serverStates i = Some Stopped
                       ∨ statusOf serverStates i = Some Failed)
            then [Connect i] else [])
  ∧ (i ∉ activeServerIds →
     statusOf serverStates i = Some Starting ∨ serverStates !! i = None →
     toggleServer serverStates activeServerIds i = (activeServerIds, [])).
Proof.
  cbn zeta. split_and!.
  - intros Hi. by rewrite toggleServer_active.
  - intros Hi. rewrite toggleServer_inactive by done.
    destruct (statusOf serverStates i) as [[]|]; cbn [snd];
      case_decide as Hstatus;
      first [ done
            | by destruct Hstatus as [[=]|[=]]
            | destruct Hstatus; by (left + right) ].
  - intros Hi Hstatus. rewrite toggleServer_inactive by done.
    destruct Hstatus as [->|Hnone]; [done|].
    unfold statusOf. by rewrite Hnone.
Qed.

Lemma toggleServer_calls_witness :
  (toggleServer exampleStates ["files"] "search").2 = [Connect "search"]
  ∧ toggleServer exampleStates ["files"] "unknown" = (["files"], []).
Proof.
  destruct (toggleServer_calls exampleStates ["files"] "search") as (_ & Hconnect & _).
  destruct (toggleServer_calls exampleStates ["files"] "unknown") as (_ & _ & Hnoop).
  split.
  - rewrite Hconnect; [by vm_compute|].
    by intros [=]%list_elem_of_singleton.
  - apply Hnoop; [|by right].
    by intros [=]%list_elem_of_singleton.
Defined.

(** ** Selecting and deselecting all servers *)

Lemma filter_nil_iff_helper (serverStates : gmap string ServerState) :
  filter (λ entry : string * ServerState, entry.1 ∈ @nil string)
    (map_to_list serverStates) = [].
Proof.
  induction (map_to_list serverStates) as [|entry entries IH]; [done|].
  rewrite filter_cons_False; [done|]. by intros ?%elem_of_nil.
Qed.

Lemma elem_of_keys (serverStates : gmap string ServerState) (i : string) :
  i ∈ (map_to_list serverStates).*1 ↔ is_Some (serverStates !! i).
Proof.
  rewrite list_elem_of_fmap. split.
  - intros [[i' state] [-> Hin%elem_of_map_to_list]]. by exists state.
  - intros [state Hin]. exists (i, state). split; [done|]. by apply elem_of_map_to_list.
Qed.

(** X22: select-all makes every configured server active, each once;
    it asks the manager to connect exactly the servers that are neither
    Running nor Starting, each once, and never to disconnect one. *)
Theorem selectAllServers_connects_the_idle (serverStates : gmap string ServerState)
    (activeServerIds : list string) :
  let ids := (selectAllServers serverStates activeServerIds).1 in
  let made := (selectAllServers serverStates activeServerIds).2 in
  NoDup ids
  ∧ list_to_set ids = dom serverStates
  ∧ NoDup made
  ∧ (∀ i, Connect i ∈ made
          ↔ ∃ state, serverStates !! i = Some state
                     ∧ status state ≠ Running ∧ status state ≠ Starting)
  ∧ ∀ i, Disconnect i ∉ made.
Proof.
  unfold selectAllServers. cbn [fst snd]. split_and!.
  - apply NoDup_fst_map_to_list.
  - apply set_eq. intros i. by rewrite elem_of_list_to_set, elem_of_keys, elem_of_dom.
  - apply NoDup_app. split_and!.
    + apply NoDup_fmap_2; [by intros ?? [=]|].
      apply NoDup_filter, NoDup_fst_map_to_list.
    + intros call [i [-> _]]%list_elem_of_fmap [=]%list_elem_of_singleton.
    + apply NoDup_singleton.
  - intros i. rewrite elem_of_app, list_elem_of_singleton, list_elem_of_fmap. split.
    + intros [[j [[= ->] [[Hrun Hstart] [state Hstate]%elem_of_keys]%list_elem_of_filter]]|[=]].
      exists state. unfold statusOf in Hrun, Hstart. rewrite Hstate in Hrun, Hstart.
      cbn in Hrun, Hstart.
      split_and!; [done|intros Heq; apply Hrun; by f_equal
                       |intros Heq; apply Hstart; by f_equal].
    + intros (state & Hstate & Hrun & Hstart). left. exists i. split; [done|].
      apply list_elem_of_filter. unfold statusOf. rewrite Hstate. cbn.
      split; [split; by intros [=]|]. apply elem_of_keys. by exists state.
  - intros i. rewrite elem_of_app, list_elem_of_singleton, list_elem_of_fmap.
    by intros [[j [[=] _]]|[=]].
Qed.

(** X23: deselect-all asks the manager to disconnect every active server,
    whatever its status, connects none, and leaves no server active, so
    that no tool is counted. *)
Theorem deselectAllServers_disconnects_the_active (serverStates : gmap string ServerState)
    (activeServerIds : list string) :
  let ids := (deselectAllServers serverStates activeServerIds).1 in
  let made := (deselectAllServers serverStates activeServerIds).2 in
  ids = []
  ∧ (∀ i, Disconnect i ∈ made ↔ i ∈ activeServerIds)
  ∧ (∀ i, Connect i ∉ made)
  ∧ totalAvailableTools serverStates ids = 0.
Proof.
  unfold deselectAllServers. cbn [fst snd]. split_and!.
  - done.
  - intros i. rewrite elem_of_app, list_elem_of_singleton, list_elem_of_fmap. split.
    + by intros [[j [[= ->] Hj]]|[=]].
    + intros Hi. left. by exists i.
  - intros i. rewrite elem_of_app, list_elem_of_singleton, list_elem_of_fmap.
    by intros [[j [[=] _]]|[=]].
  - rewrite totalAvailableTools_sum.
    rewrite (filter_nil_iff_helper serverStates). done.
Qed.

(** ** The menu over any sequence of events *)

Lemma reconciled_configured (serverStates : gmap string ServerState)
    (activeServerIds : list string) (i : string) :
  i ∈ reconciled serverStates activeServerIds → is_Some (serverStates !! i).
Proof.
  intros Hi. apply (elem_of_list_to_set (C := gset string)) in Hi.
  rewrite reconciled_runningIds in Hi. unfold runningIds in Hi.
  apply elem_of_dom in Hi as [state [Hstate _]%map_lookup_filter_Some]. by exists state.
Qed.

Lemma menuStep_states (m : Menu) (ev : MenuEvent) :
  states (menuStep m ev)
  = match ev with StatesChanged serverStates => serverStates | _ => states m end.
Proof. by destruct ev. Qed.

Lemma menuStep_active (m : Menu) (ev : MenuEvent) :
  active (menuStep m ev)
  = match ev with
    | StatesChanged serverStates => reconciled serverStates (active m)
    | Toggle i => (toggleServer (states m) (active m) i).1
    | SelectAll => (map_to_list (states m)).*1
    | DeselectAll => []
    end.
Proof. by destruct ev. Qed.

Lemma toggleServer_configured (serverStates : gmap string ServerState)
    (activeServerIds : list string) (i : string) :
  i ∉ activeServerIds → i ∈ (toggleServer serverStates activeServerIds i).1 →
  is_Some (serverStates !! i).
Proof.
  intros Hi. rewrite toggleServer_inactive by done. unfold statusOf.
  destruct (serverStates !! i) as [state|]; [by exists state|]. by cbn.
Qed.

Lemma menuStep_invariant (m : Menu) (ev : MenuEvent) :
  NoDup (active m) ∧ (∀ i, i ∈ active m → is_Some (states m !! i)) →
  NoDup (active (menuStep m ev))
  ∧ ∀ i, i ∈ active (menuStep m ev) → is_Some (states (menuStep m ev) !! i).
Proof.
  intros [Hnodup Hknown]. rewrite menuStep_active, menuStep_states.
  destruct ev as [serverStates|i| |].
  - split; [by apply NoDup_reconciled|]. apply reconciled_configured.
  - split; [by apply NoDup_toggleServer|]. intros j Hj.
    destruct (decide (j = i)) as [->|Hne];
      [|by apply Hknown, (toggleServer_others (states m) (active m) i j)].
    destruct (decide (i ∈ active m)) as [Hi|Hi]; [by apply Hknown|].
    by apply (toggleServer_configured _ (active m)).
  - split; [apply NoDup_fst_map_to_list|]. intros i. by rewrite elem_of_keys.
  - split; [constructor|]. by intros i ?%elem_of_nil.
Qed.

Lemma length_le_size (ids : list string) (serverStates : gmap string ServerState) :
  NoDup ids → (∀ i, i ∈ ids → is_Some (serverStates !! i)) →
  (length ids ≤ size serverStates)%nat.
Proof.
  intros Hnodup Hknown.
  transitivity (size (dom serverStates : gset string)); [|by rewrite size_dom].
  transitivity (size (list_to_set ids : gset string));
    [by rewrite size_list_to_set|].
  apply subseteq_size, elem_of_subseteq. intros i Hi%elem_of_list_to_set.
  by apply elem_of_dom, Hknown.
Qed.

(** X24: over any sequence of state changes, toggles, select-all and
    deselect-all from the opened menu, the active list holds no id twice
    and only ids of servers the manager knows, so the number of active
    servers shown never exceeds the number of configured servers. *)
Theorem menu_active_list_is_sound (events : list MenuEvent) :
  let m := menuRun events opened in
  NoDup (active m)
  ∧ (∀ i, i ∈ active m → is_Some (states m !! i))
  ∧ (length (active m) ≤ size (states m))%nat.
Proof.
  cbn zeta.
  assert (Hinv : NoDup (active (menuRun events opened))
                 ∧ ∀ i, i ∈ active (menuRun events opened)
                        → is_Some (states (menuRun events opened) !! i)).
  { induction events as [|ev events IH] using rev_ind.
    - split; [constructor|]. by intros i ?%elem_of_nil.
    - unfold menuRun. rewrite foldl_snoc. by apply menuStep_invariant. }
  destruct Hinv as [Hnodup Hknown]. split_and!; [done..|].
  by apply length_le_size.
Qed.

Lemma menu_active_list_is_sound_witness :
  let m := menuRun [StatesChanged exampleStates; Toggle "search"; Toggle "files"] opened in
  is_Some (states m !! "search") ∧ active m = ["clock"; "search"].
Proof.
  cbn zeta.
  destruct (menu_active_list_is_sound
              [StatesChanged exampleStates; Toggle "search"; Toggle "files"])
    as (_ & Hknown & _).
  assert (Hactive : active (menuRun [StatesChanged exampleStates; Toggle "search";
                                     Toggle "files"] opened) = ["clock"; "search"])
    by by vm_compute.
  split; [|exact Hactive]. apply Hknown. rewrite Hactive.
  apply list_elem_of_further, list_elem_of_here.
Defined.

(** ** The tool count and its badge *)

Lemma sum_list_with_positive {A} (f : A → nat) (l : list A) :
  0 < sum_list_with f l → ∃ x, x ∈ l ∧ 0 < f x.
Proof.
  induction l as [|x l IH]; cbn; [lia|]. intros Hsum.
  destruct (decide (0 < f x)) as [Hx|Hx].
  - exists x. split; [apply list_elem_of_here|done].
  - destruct IH as (y & Hy & Hfy); [lia|].
    exists y. split; [by apply list_elem_of_further|done].
Qed.

Lemma sum_list_with_filter_le {A} (f g : A → nat) (P : A → Prop)
    `{!∀ x, Decision (P x)} (l : list A) :
  (∀ x, (f x ≤ g x)%nat) → (sum_list_with f (filter P l) ≤ sum_list_with g l)%nat.
Proof.
  intros Hle. induction l as [|x l IH]; [done|].
  rewrite filter_cons. specialize (Hle x). case_decide; cbn; lia.
Qed.

Lemma totalAvailableTools_positive (serverStates : gmap string ServerState)
    (activeServerIds : list string) :
  0 < totalAvailableTools serverStates activeServerIds →
  ∃ i state ts, i ∈ activeServerIds ∧ serverStates !! i = Some state
                ∧ status state = Running ∧ tools state = Some ts ∧ 0 < length ts.
Proof.
  rewrite totalAvailableTools_sum.
  intros ([i state] & [Hactive Hentry%elem_of_map_to_list]%list_elem_of_filter
          & Hpositive)%sum_list_with_positive.
  cbn in *. unfold contribution in Hpositive.
  destruct (status state) eqn:Hstatus; try lia.
  destruct (tools state) as [ts|] eqn:Htools; [|lia].
  by exists i, state, ts.
Qed.

(** X25: the tool count depends on which servers are active, not on how
    the list holds them (an id listed twice is counted once); it never
    exceeds the tools of all servers together; and when it is positive,
    some active server is Running and has at least one tool. *)
Theorem totalAvailableTools_bounds (serverStates : gmap string ServerState)
    (activeServerIds : list string) :
  (∀ ids : list string,
     list_to_set ids =@{gset string} list_to_set activeServerIds →
     totalAvailableTools serverStates ids
     = totalAvailableTools serverStates activeServerIds)
  ∧ (totalAvailableTools serverStates activeServerIds
     ≤ sum_list_with (λ entry, toolCount entry.2) (map_to_list serverStates))%nat
  ∧ (0 < totalAvailableTools serverStates activeServerIds →
     ∃ i state ts, i ∈ activeServerIds ∧ serverStates !! i = Some state
                   ∧ status state = Running ∧ tools state = Some ts ∧ 0 < length ts).
Proof.
  split_and!.
  - intros ids Hsame. rewrite !totalAvailableTools_totalTools_spec.
    unfold totalTools_spec. by rewrite Hsame.
  - rewrite totalAvailableTools_sum. apply sum_list_with_filter_le.
    intros [i state]. unfold contribution, toolCount. cbn.
    destruct (status state), (tools state); lia.
  - apply totalAvailableTools_positive.
Qed.

Lemma totalAvailableTools_bounds_witness :
  totalAvailableTools exampleStates ["files"; "files"; "search"]
  = totalAvailableTools exampleStates ["search"; "files"].
Proof.
  destruct (totalAvailableTools_bounds exampleStates ["search"; "files"]) as (Hset & _).
  apply Hset. apply set_eq. intros i. rewrite !elem_of_list_to_set.
  rewrite !elem_of_cons. tauto.
Defined.

(** X26: the badge with the tool count is shown exactly when the count is
    positive: a positive count already means that a server is active. *)
Theorem toolBadge_shown_iff_tools (serverStates : gmap string ServerState)
    (activeServerIds : list string) :
  is_Some (toolBadge serverStates activeServerIds)
  ↔ 0 < totalAvailableTools serverStates activeServerIds.
Proof.
  unfold toolBadge. cbn zeta. case_decide as Hshown.
  - split; [intros _; apply Hshown|]. intros _. eexists. reflexivity.
  - split; [by intros [? [=]]|]. intros Hpositive. destruct Hshown. split; [|done].
    destruct (totalAvailableTools_positive _ _ Hpositive) as (i & _ & _ & Hi & _).
    destruct activeServerIds; [by apply elem_of_nil in Hi|cbn; lia].
Qed.

End ServerMenuFacts.
